(** * Leaflet.CanvasLayer.Field: the field model and the particle animation

    A shallow embedding of the classes [Vector], [Field], [ScalarField] and
    [VectorField] and of the animation step of [L.CanvasLayer.VectorFieldAnim]
    from [dist/leaflet-canvaslayer-field.js].

    Conventions of the embedding:
    - a JavaScript number is read as an exact rational ([Q]); column and row
      counts, integer indexes and particle ages are integers ([Z]).  Rounding,
      NaN and the infinities of IEEE doubles are outside the model; division is
      only used by cell sizes, which are positive in every field considered;
    - [null] and [undefined] are kept apart ([JS.value]), because the code
      tests [=== null] in some places and [_isValid] in others;
    - reading a property of [undefined] raises a [TypeError]: such code lives
      in the [JS.completion] monad;
    - [Math.random], [Math.sqrt], the point-in-polygon test of a spatial mask
      and the viewport test of the drawing layer are taken as parameters. *)

From Stdlib Require Import ZArith QArith Qround List Bool Lia.
From Stdlib Require Import Qabs Lqa.
Import ListNotations.

Open Scope Q_scope.

(** ** JavaScript values, arrays and abrupt completion *)

Module JS.

Inductive value (T : Type) : Type :=
| undefined
| null
| val (t : T).
Arguments undefined {T}.
Arguments null {T}.
Arguments val {T} t.

Inductive exn : Type := TypeError.

Inductive completion (A : Type) : Type :=
| Return (a : A)
| Throw (e : exn).
Arguments Return {A} a.
Arguments Throw {A} e.

Definition bind {A B} (m : completion A) (k : A -> completion B)
  : completion B :=
  match m with
  | Return a => k a
  | Throw e => Throw e
  end.

(** An array is a list of slots; a slot can hold [undefined] or [null]. *)
Definition Array (T : Type) : Type := list (value T).

(** [a[k]] on an array: [undefined] outside [0 .. length-1]. *)
Definition get {T} (a : Array T) (k : Z) : value T :=
  if (k <? 0)%Z then undefined else nth (Z.to_nat k) a undefined.

(** [a[k]] where [a] itself may be missing: a [TypeError] then. *)
Definition read {T} (a : option (Array T)) (k : Z) : completion (value T) :=
  match a with
  | Some arr => Return (get arr k)
  | None => Throw TypeError
  end.

(** [x !== null] *)
Definition not_null {T} (x : value T) : bool :=
  match x with null => false | _ => true end.

(** [x < y] and [x >= y] on numbers *)
Definition ltb (x y : Q) : bool := negb (Qle_bool y x).
Definition geb (x y : Q) : bool := Qle_bool y x.
Definition gtb (x y : Q) : bool := negb (Qle_bool x y).
Definition leb (x y : Q) : bool := Qle_bool x y.

(** [Math.floor] *)
Definition Math_floor (x : Q) : Z := Qfloor x.

(** [x | 0]: truncation toward zero, then wrap-around to 32 bits. *)
Definition truncate (x : Q) : Z :=
  if Qle_bool 0 x then Qfloor x else Qceiling x.
Definition ToInt32 (x : Q) : Z :=
  ((truncate x + 2 ^ 31) mod 2 ^ 32 - 2 ^ 31)%Z.

(** Equality of results up to the value of the fraction. *)
Definition Qeqv (a b : value Q) : Prop :=
  match a, b with
  | undefined, undefined => True
  | null, null => True
  | val x, val y => x == y
  | _, _ => False
  end.

End JS.

Import JS.

Notation "x <- m ;; k" := (JS.bind m (fun x => k))
  (at level 61, m at next level, right associativity).

(** [d3.min] and [d3.max] of the d3-array library: entries that are
    [undefined] or [null] are skipped, the result is [undefined] when nothing
    is left. *)
Module d3.

Fixpoint numbers (data : Array Q) : list Q :=
  match data with
  | [] => []
  | val q :: data' => q :: numbers data'
  | _ :: data' => numbers data'
  end.

Definition extremum (better : Q -> Q -> bool) (data : Array Q) : value Q :=
  match numbers data with
  | [] => undefined
  | q :: qs => val (fold_left (fun m x => if better x m then x else m) qs q)
  end.

Definition min : Array Q -> value Q := extremum JS.ltb.
Definition max : Array Q -> value Q := extremum JS.gtb.

End d3.

(** ** The built-ins the code calls *)

(** [Math_sqrt] is [Math.sqrt]; [Math_random k] is the result of the [k]-th
    call of [Math.random()] (a number in [[0, 1)]), the calls being counted
    from 0. *)
Class Builtins : Type := {
  Math_sqrt : Q -> Q;
  Math_random : nat -> Q
}.

(** ** class Vector *)

Module Vector.

Record t : Type := mk { u : Q; v : Q }.

Definition magnitude {B : Builtins} (this : t) : Q :=
  Math_sqrt (u this * u this + v this * v this).

End Vector.

(** ** class Cell *)

Module Cell.

(** [center] is the pair (lat, lng) given to [L.latLng]. *)
Record t (T : Type) : Type := mk {
  center : Q * Q;
  value : JS.value T;
  xSize : Q;
  ySize : Q
}.
Arguments mk {T}.
Arguments center {T}.
Arguments value {T}.
Arguments xSize {T}.
Arguments ySize {T}.

End Cell.

(** ** class Field *)

Module Field.

(** The descriptor handed to the constructors; [D] is the flat data of the
    subclass ([zs], or [us] and [vs]). *)
Record Params (D : Type) : Type := mkParams {
  p_nCols : Z;
  p_nRows : Z;
  p_xllCorner : Q;
  p_yllCorner : Q;
  p_cellXSize : Q;
  p_cellYSize : Q;
  p_data : D
}.
Arguments mkParams {D}.
Arguments p_nCols {D}.
Arguments p_nRows {D}.
Arguments p_xllCorner {D}.
Arguments p_yllCorner {D}.
Arguments p_cellXSize {D}.
Arguments p_cellYSize {D}.
Arguments p_data {D}.

(** The object: [T] is the type of a grid value (Number or Vector). *)
Record t (T D : Type) : Type := mk {
  nCols : Z;
  nRows : Z;
  xllCorner : Q;
  yllCorner : Q;
  xurCorner : Q;
  yurCorner : Q;
  cellXSize : Q;
  cellYSize : Q;
  grid : list (Array T);
  isContinuous : bool;
  longitudeNeedsToBeWrapped : bool;
  _inFilter : option (value T -> bool);
  _spatialMask : option (Q -> Q -> bool);
  range : value Q * value Q;
  data : D
}.
Arguments mk {T D}.
Arguments nCols {T D}.
Arguments nRows {T D}.
Arguments xllCorner {T D}.
Arguments yllCorner {T D}.
Arguments xurCorner {T D}.
Arguments yurCorner {T D}.
Arguments cellXSize {T D}.
Arguments cellYSize {T D}.
Arguments grid {T D}.
Arguments isContinuous {T D}.
Arguments longitudeNeedsToBeWrapped {T D}.
Arguments _inFilter {T D}.
Arguments _spatialMask {T D}.
Arguments range {T D}.
Arguments data {T D}.

Definition set_grid {T D} (g : list (Array T)) (F : t T D) : t T D :=
  mk (nCols F) (nRows F) (xllCorner F) (yllCorner F) (xurCorner F)
     (yurCorner F) (cellXSize F) (cellYSize F) g (isContinuous F)
     (longitudeNeedsToBeWrapped F) (_inFilter F) (_spatialMask F) (range F)
     (data F).

Definition set_range {T D} (r : value Q * value Q) (F : t T D) : t T D :=
  mk (nCols F) (nRows F) (xllCorner F) (yllCorner F) (xurCorner F)
     (yurCorner F) (cellXSize F) (cellYSize F) (grid F) (isContinuous F)
     (longitudeNeedsToBeWrapped F) (_inFilter F) (_spatialMask F) r
     (data F).

Definition set_inFilter {T D} (f : option (value T -> bool)) (F : t T D)
  : t T D :=
  mk (nCols F) (nRows F) (xllCorner F) (yllCorner F) (xurCorner F)
     (yurCorner F) (cellXSize F) (cellYSize F) (grid F) (isContinuous F)
     (longitudeNeedsToBeWrapped F) f (_spatialMask F) (range F) (data F).

Definition set_spatialMask {T D} (m : option (Q -> Q -> bool)) (F : t T D)
  : t T D :=
  mk (nCols F) (nRows F) (xllCorner F) (yllCorner F) (xurCorner F)
     (yurCorner F) (cellXSize F) (cellYSize F) (grid F) (isContinuous F)
     (longitudeNeedsToBeWrapped F) (_inFilter F) m (range F) (data F).

(** [constructor(params)] of the base class.  The grid is [null] and the
    range unset until the subclass constructor fills them in; the base class
    is never instantiated on its own. *)
Definition init {T D} (params : Params D) : t T D :=
  let xur := p_xllCorner params + inject_Z (p_nCols params) * p_cellXSize params in
  let yur := p_yllCorner params + inject_Z (p_nRows params) * p_cellYSize params in
  mk (p_nCols params) (p_nRows params)
     (p_xllCorner params) (p_yllCorner params) xur yur
     (p_cellXSize params) (p_cellYSize params)
     []
     (JS.geb (xur - p_xllCorner params) 360)
     (JS.gtb xur 180)
     None None (undefined, undefined) (p_data params).

(** What a subclass has to provide. *)
Class Impl (T D : Type) : Type := {
  _doInterpolation : Q -> Q -> T -> T -> T -> T -> T;
  _calculateRange : t T D -> completion (value Q * value Q)
}.

Section Methods.

Context {T D : Type} {impl : Impl T D}.
Variable F : t T D.

Definition _isValid {A} (x : value A) : bool :=
  match x with val _ => true | _ => false end.

Definition numCells : Z := (nRows F * nCols F)%Z.

Definition _getWrappedLongitudes : Q * Q :=
  let xmin := xllCorner F in
  let xmax := xurCorner F in
  if longitudeNeedsToBeWrapped F then
    if isContinuous F then (-180, 180)
    else (xllCorner F - 360, xurCorner F - 360)
  else (xmin, xmax).

Definition extent : Q * Q * Q * Q :=
  let '(xmin, xmax) := _getWrappedLongitudes in
  (xmin, yllCorner F, xmax, yurCorner F).

Definition _pointInExtent (lon lat : Q) : bool :=
  let '(xmin, xmax) := _getWrappedLongitudes in
  let longitudeIn := JS.geb lon xmin && JS.leb lon xmax in
  let latitudeIn := JS.geb lat (yllCorner F) && JS.leb lat (yurCorner F) in
  longitudeIn && latitudeIn.

Definition _pointInMask (poly : Q -> Q -> bool) (lon lat : Q) : bool :=
  poly lon lat.

Definition contains (lon lat : Q) : bool :=
  match _spatialMask F with
  | Some poly => _pointInMask poly lon lat
  | None => _pointInExtent lon lat
  end.

Definition notContains (lon lat : Q) : bool := negb (contains lon lat).

Definition _getDecimalIndexes (lon lat : Q) : Q * Q :=
  let lon :=
    if longitudeNeedsToBeWrapped F && JS.ltb lon (xllCorner F)
    then lon + 360 else lon in
  let i := (lon - xllCorner F) / cellXSize F in
  let j := (yurCorner F - lat) / cellYSize F in
  (i, j).

Definition _clampColumnIndex (ii : Z) : Z :=
  let i := ii in
  let i := if (ii <? 0)%Z then 0%Z else i in
  let maxCol := (nCols F - 1)%Z in
  let i := if (ii >? maxCol)%Z then maxCol else i in
  i.

Definition _clampRowIndex (jj : Z) : Z :=
  let j := jj in
  let j := if (jj <? 0)%Z then 0%Z else j in
  let maxRow := (nRows F - 1)%Z in
  let j := if (jj >? maxRow)%Z then maxRow else j in
  j.

Definition _getFourSurroundingIndexes (i j : Q) : Z * Z * Z * Z :=
  let fi := Math_floor i in
  let ci := (fi + 1)%Z in
  let ci := if isContinuous F && (ci >=? nCols F)%Z then 0%Z else ci in
  let ci := _clampColumnIndex ci in
  let fj := _clampRowIndex (Math_floor j) in
  let cj := _clampRowIndex (fj + 1) in
  (fi, ci, fj, cj).

(** [this.grid[j]]: a row, or [undefined] ([None]). *)
Definition row (j : Z) : option (Array T) :=
  if (j <? 0)%Z then None else nth_error (grid F) (Z.to_nat j).

Definition _getFourSurroundingValues (fi ci fj cj : Z)
  : option (T * T * T * T) :=
  match row fj with
  | Some r =>
      match get r fi, get r ci with
      | val g00, val g10 =>
          match row cj with
          | Some r' =>
              match get r' fi, get r' ci with
              | val g01, val g11 => Some (g00, g10, g01, g11)
              | _, _ => None
              end
          | None => None
          end
      | _, _ => None
      end
  | None => None
  end.

Definition interpolatedValueAtIndexes (i j : Q) : value T :=
  let '(fi, ci, fj, cj) := _getFourSurroundingIndexes i j in
  match _getFourSurroundingValues fi ci fj cj with
  | Some (g00, g10, g01, g11) =>
      val (_doInterpolation (i - inject_Z fi) (j - inject_Z fj)
                            g00 g10 g01 g11)
  | None => null
  end.

Definition interpolatedValueAt (lon lat : Q) : value T :=
  if notContains lon lat then null
  else
    let '(i, j) := _getDecimalIndexes lon lat in
    interpolatedValueAtIndexes i j.

(** [this.grid[j][i]] *)
Definition _valueAtIndexes (i j : Z) : completion (value T) :=
  match row j with
  | Some r => Return (get r i)
  | None => Throw TypeError
  end.

Definition valueAt (lon lat : Q) : completion (value T) :=
  if notContains lon lat then Return null
  else
    let '(i, j) := _getDecimalIndexes lon lat in
    let ii := Math_floor i in
    let jj := Math_floor j in
    let ci := _clampColumnIndex ii in
    let cj := _clampRowIndex jj in
    value <- _valueAtIndexes ci cj ;;
    match _inFilter F with
    | Some f => if negb (f value) then Return null else Return value
    | None => Return value
    end.

Definition hasValueAt (lon lat : Q) : completion bool :=
  value <- valueAt lon lat ;;
  let hasValue := not_null value in
  let included :=
    match _inFilter F with
    | Some f => f value
    | None => true
    end in
  Return (hasValue && included).

Definition notHasValueAt (lon lat : Q) : completion bool :=
  b <- hasValueAt lon lat ;; Return (negb b).

Definition _longitudeAtX (i : Z) : Q :=
  let halfXPixel := cellXSize F / 2 in
  let lon := xllCorner F + halfXPixel + inject_Z i * cellXSize F in
  if longitudeNeedsToBeWrapped F
  then (if JS.gtb lon 180 then lon - 360 else lon)
  else lon.

Definition _latitudeAtY (j : Z) : Q :=
  let halfYPixel := cellYSize F / 2 in
  yurCorner F - halfYPixel - inject_Z j * cellYSize F.

Definition _lonLatAtIndexes (i j : Z) : Q * Q :=
  (_longitudeAtX i, _latitudeAtY j).

(** [randomPosition]: the two draws of [Math.random()] are arguments;
    the result is the pair written to [o.x] and [o.y]. *)
Definition randomPosition (r1 r2 : Q) : Q * Q :=
  let i := ToInt32 (r1 * inject_Z (nCols F)) in
  let j := ToInt32 (r2 * inject_Z (nRows F)) in
  (_longitudeAtX i, _latitudeAtY j).

(** [getCells(stride)] for a positive [stride]: the column (row) indexes
    visited are [0, stride, 2*stride, ...] below [nCols] ([nRows]). *)
Definition strided (stride : positive) (n : Z) : list Z :=
  map (fun k => (Z.of_nat k * Zpos stride)%Z)
      (seq 0 (Z.to_nat ((n + Zpos stride - 1) / Zpos stride))).

Fixpoint cells_of_row (j : Z) (cols : list Z) : completion (list (Cell.t T)) :=
  match cols with
  | [] => Return []
  | i :: cols' =>
      let '(lon, lat) := _lonLatAtIndexes i j in
      let center := (lat, lon) in
      value <- _valueAtIndexes i j ;;
      let c := Cell.mk center value (cellXSize F) (cellYSize F) in
      cells <- cells_of_row j cols' ;;
      Return (c :: cells)
  end.

Fixpoint cells_of_rows (rows cols : list Z) : completion (list (Cell.t T)) :=
  match rows with
  | [] => Return []
  | j :: rows' =>
      cells <- cells_of_row j cols ;;
      rest <- cells_of_rows rows' cols ;;
      Return (cells ++ rest)
  end.

Definition getCells (stride : positive) : completion (list (Cell.t T)) :=
  cells_of_rows (strided stride (nRows F)) (strided stride (nCols F)).

Definition _updateRange : completion (t T D) :=
  r <- _calculateRange F ;; Return (set_range r F).

End Methods.

(** [setFilter(f)]; [f] may be [null]. *)
Definition setFilter {T D} {impl : Impl T D}
  (f : option (value T -> bool)) (F : t T D) : completion (t T D) :=
  _updateRange (set_inFilter f F).

Definition setSpatialMask {T D} (m : option (Q -> Q -> bool)) (F : t T D)
  : t T D :=
  set_spatialMask m F.

End Field.

(** ** class ScalarField *)

Module ScalarField.

(** [this.zs]: the flat array of the descriptor, which may be missing. *)
Definition Data : Type := option (Array Q).

Definition t : Type := Field.t Q Data.

(** The inner loop of [_arrayTo2d]: [n] columns are still to be filled, [p]
    is the running position in the flat array. *)
Fixpoint fill_row (array : Data) (n : nat) (p : Z) (row : Array Q)
  : completion (Array Q * Z) :=
  match n with
  | O => Return (row, p)
  | S n' =>
      z <- read array p ;;
      fill_row array n' (p + 1)%Z
               (row ++ [if Field._isValid z then z else null])
  end.

(** The outer loop: [n] rows are still to be built. *)
Fixpoint fill_grid (array : Data) (nCols : Z) (n : nat) (p : Z)
  (grid : list (Array Q)) : completion (list (Array Q)) :=
  match n with
  | O => Return grid
  | S n' =>
      rp <- fill_row array (Z.to_nat nCols) p [] ;;
      fill_grid array nCols n' (snd rp) (grid ++ [fst rp])
  end.

Definition _arrayTo2d (array : Data) (nRows nCols : Z)
  : completion (list (Array Q)) :=
  fill_grid array nCols (Z.to_nat nRows) 0%Z [].

Definition _buildGrid (F : t) : completion (list (Array Q)) :=
  _arrayTo2d (Field.data F) (Field.nRows F) (Field.nCols F).

Definition _calculateRange (F : t) : completion (value Q * value Q) :=
  match Field.data F with
  | None => Throw TypeError
  | Some zs =>
      let data :=
        match Field._inFilter F with
        | Some f => filter f zs
        | None => zs
        end in
      Return (d3.min data, d3.max data)
  end.

Definition _doInterpolation (x y g00 g10 g01 g11 : Q) : Q :=
  let rx := 1 - x in
  let ry := 1 - y in
  g00 * rx * ry + g10 * x * ry + g01 * rx * y + g11 * x * y.

#[global] Instance impl : Field.Impl Q Data := {
  Field._doInterpolation := _doInterpolation;
  Field._calculateRange := _calculateRange
}.

(** [new ScalarField(params)] *)
Definition new (params : Field.Params Data) : completion t :=
  let F : t := Field.init params in
  grid <- _buildGrid F ;;
  Field._updateRange (Field.set_grid grid F).

End ScalarField.

(** ** class VectorField *)

Module VectorField.

(** [this.us] and [this.vs] *)
Definition Data : Type := (option (Array Q) * option (Array Q))%type.

Definition t : Type := Field.t Vector.t Data.

Fixpoint fill_row (us vs : option (Array Q)) (n : nat) (p : Z)
  (row : Array Vector.t) : completion (Array Vector.t * Z) :=
  match n with
  | O => Return (row, p)
  | S n' =>
      u <- read us p ;;
      v <- read vs p ;;
      fill_row us vs n' (p + 1)%Z
               (row ++ [match u, v with
                        | val u', val v' => val (Vector.mk u' v')
                        | _, _ => null
                        end])
  end.

Fixpoint fill_grid (us vs : option (Array Q)) (nCols : Z) (n : nat) (p : Z)
  (grid : list (Array Vector.t)) : completion (list (Array Vector.t)) :=
  match n with
  | O => Return grid
  | S n' =>
      rp <- fill_row us vs (Z.to_nat nCols) p [] ;;
      fill_grid us vs nCols n' (snd rp) (grid ++ [fst rp])
  end.

Definition _arraysTo2d (us vs : option (Array Q)) (nRows nCols : Z)
  : completion (list (Array Vector.t)) :=
  fill_grid us vs nCols (Z.to_nat nRows) 0%Z [].

Definition _buildGrid (F : t) : completion (list (Array Vector.t)) :=
  _arraysTo2d (fst (Field.data F)) (snd (Field.data F))
              (Field.nRows F) (Field.nCols F).

(** [vectors.map(v => v.magnitude())]; the vectors are not [null] here, one
    that is [undefined] raises. *)
Fixpoint magnitudes {B : Builtins} (vectors : Array Vector.t)
  : completion (Array Q) :=
  match vectors with
  | [] => Return []
  | val v :: rest =>
      ms <- magnitudes rest ;; Return (val (Vector.magnitude v) :: ms)
  | _ :: _ => Throw TypeError
  end.

Definition _calculateRange {B : Builtins} (F : t)
  : completion (value Q * value Q) :=
  cells <- Field.getCells F 1 ;;
  let vectors := filter not_null (map Cell.value cells) in
  let vectors :=
    match Field._inFilter F with
    | Some f => filter f vectors
    | None => vectors
    end in
  ms <- magnitudes vectors ;;
  Return (d3.min ms, d3.max ms).

Definition _doInterpolation (x y : Q) (g00 g10 g01 g11 : Vector.t)
  : Vector.t :=
  let rx := 1 - x in
  let ry := 1 - y in
  let a := rx * ry in
  let b := x * ry in
  let c := rx * y in
  let d := x * y in
  let u := Vector.u g00 * a + Vector.u g10 * b + Vector.u g01 * c
           + Vector.u g11 * d in
  let v := Vector.v g00 * a + Vector.v g10 * b + Vector.v g01 * c
           + Vector.v g11 * d in
  Vector.mk u v.

#[global] Instance impl {B : Builtins} : Field.Impl Vector.t Data := {
  Field._doInterpolation := _doInterpolation;
  Field._calculateRange := _calculateRange
}.

(** [new VectorField(params)] *)
Definition new {B : Builtins} (params : Field.Params Data) : completion t :=
  let F : t := Field.init params in
  grid <- _buildGrid F ;;
  let F := Field.set_grid grid F in
  range <- _calculateRange F ;;
  Return (Field.set_range range F).

End VectorField.

(** ** L.CanvasLayer.VectorFieldAnim: the particles *)

Module VectorFieldAnim.

Record Options : Type := mkOptions {
  paths : Z;
  maxAge : Z;
  velocityScale : Q
}.

(** A particle.  [xt], [yt] and [m] do not exist before the first advance
    that succeeds. *)
Record Particle : Type := mkParticle {
  x : Q;
  y : Q;
  xt : value Q;
  yt : value Q;
  m : value Q;
  age : Z
}.

Definition set_age (a : Z) (par : Particle) : Particle :=
  mkParticle (x par) (y par) (xt par) (yt par) (m par) a.

Definition set_position (xy : Q * Q) (par : Particle) : Particle :=
  mkParticle (fst xy) (snd xy) (xt par) (yt par) (m par) (age par).

Definition set_target (xt' yt' m' : Q) (par : Particle) : Particle :=
  mkParticle (x par) (y par) (val xt') (val yt') (val m') (age par).

(** Code that calls [Math.random()]: the state is the number of calls made
    so far. *)
Definition Rand (A : Type) : Type := nat -> completion (A * nat).

Definition ret {A} (a : A) : Rand A := fun k => Return (a, k).

Definition bindR {A B} (c : Rand A) (f : A -> Rand B) : Rand B :=
  fun k => r <- c k ;; f (fst r) (snd r).

Definition lift {A} (c : completion A) : Rand A :=
  fun k => a <- c ;; Return (a, k).

Section Animation.

Context {B : Builtins}.
Variable field : VectorField.t.
Variable options : Options.
(** [viewInfo.bounds.contains(L.latLng(lat, lng))] *)
Variable inView : Q -> Q -> bool.

Definition random : Rand Q := fun k => Return (Math_random k, S k).

(** [self._field.randomPosition(par)] *)
Definition randomPosition (par : Particle) : Rand Particle :=
  bindR random (fun r1 =>
  bindR random (fun r2 =>
  ret (set_position (Field.randomPosition field r1 r2) par))).

Definition _randomAge : Rand Z :=
  bindR random (fun r => ret (Math_floor (r * inject_Z (maxAge options)))).

(** The body of the [forEach] of [_moveParticles], for one particle. *)
Definition moveParticle (par : Particle) : Rand Particle :=
  bindR (if (age par >? maxAge options)%Z
         then randomPosition (set_age 0 par)
         else ret par) (fun par =>
  bindR (lift (Field.valueAt field (x par) (y par))) (fun vector =>
  bindR (match vector with
         | null => ret (set_age (maxAge options) par)
         | undefined => lift (Throw TypeError)
         | val vec =>
             let xt := x par + Vector.u vec * velocityScale options in
             let yt := y par + Vector.v vec * velocityScale options in
             bindR (lift (Field.hasValueAt field xt yt)) (fun has =>
             if has : bool
             then ret (set_target xt yt (Vector.magnitude vec) par)
             else ret (set_age (maxAge options) par))
         end) (fun par =>
  ret (set_age (age par + 1) par)))).

Fixpoint forEach (f : Particle -> Rand Particle) (paths : list Particle)
  : Rand (list Particle) :=
  match paths with
  | [] => ret []
  | par :: rest =>
      bindR (f par) (fun par' =>
      bindR (forEach f rest) (fun rest' =>
      ret (par' :: rest')))
  end.

Definition _moveParticles (paths : list Particle) : Rand (list Particle) :=
  forEach moveParticle paths.

(** What [_drawParticle] does to the particle: when the segment is drawn the
    particle moves on to its target.  [None] stands for a particle that is
    drawn before it was ever advanced, whose position would become
    [undefined]. *)
Definition _drawParticle (par : Particle) : option Particle :=
  if inView (y par) (x par) && (age par <=? maxAge options)%Z
  then match xt par, yt par with
       | val xt', val yt' => Some (set_position (xt', yt') par)
       | _, _ => None
       end
  else Some par.

Fixpoint _drawParticles (paths : list Particle) : option (list Particle) :=
  match paths with
  | [] => Some []
  | par :: rest =>
      match _drawParticle par, _drawParticles rest with
      | Some par', Some rest' => Some (par' :: rest')
      | _, _ => None
      end
  end.

(** [_prepareParticlePaths]: [n] particles are still to be created. *)
Fixpoint prepare (n : nat) (paths : list Particle) : Rand (list Particle) :=
  match n with
  | O => ret paths
  | S n' =>
      bindR (randomPosition (mkParticle 0 0 undefined undefined undefined 0))
            (fun p =>
      bindR _randomAge (fun a =>
      prepare n' (paths ++ [set_age a p])))
  end.

Definition _prepareParticlePaths : Rand (list Particle) :=
  prepare (Z.to_nat (paths options)) [].

(** One step of the timer: [_moveParticles(); _drawParticles();]. *)
Definition timerStep (paths : list Particle) (k : nat)
  : completion (option (list Particle) * nat) :=
  r <- _moveParticles paths k ;;
  Return (_drawParticles (fst r), snd r).

(** *** Notions used to state the properties of a tick *)

(** The particle as the tick samples it, and the number of draws made by
    then: a particle older than [maxAge] has been respawned. *)
Definition entering (par : Particle) (k : nat) : Particle * nat :=
  if (age par >? maxAge options)%Z
  then (set_position
          (Field.randomPosition field (Math_random k) (Math_random (S k)))
          (set_age 0 par),
        S (S k))
  else (par, k).

(** The candidate next position for the sampled vector [vec]. *)
Definition candidate (par : Particle) (vec : Vector.t) : Q * Q :=
  (x par + Vector.u vec * velocityScale options,
   y par + Vector.v vec * velocityScale options).

(** The advance of [q] succeeds with [vec]: the field has the value [vec]
    at the position of [q] and a value at the candidate position. *)
Definition advances (q : Particle) (vec : Vector.t) : Prop :=
  Field.valueAt field (x q) (y q) = Return (val vec)
  /\ Field.hasValueAt field (fst (candidate q vec)) (snd (candidate q vec))
     = Return true.

(** The advance of [q] fails: no value at its position, or none at the
    candidate position. *)
Definition stranded (q : Particle) : Prop :=
  Field.valueAt field (x q) (y q) = Return null
  \/ exists vec,
       Field.valueAt field (x q) (y q) = Return (val vec)
       /\ Field.hasValueAt field (fst (candidate q vec))
                                 (snd (candidate q vec))
          = Return false.

End Animation.

End VectorFieldAnim.

(** ** Fields as the constructors build them *)

Module Built.

(** A slot of a grid is a value or [null], never [undefined]. *)
Definition slot_ok {T} (z : value T) : bool :=
  match z with undefined => false | _ => true end.

(** The grid has [nRows] rows of [nCols] slots, and both are positive. *)
Definition grid_ok {T D} (F : Field.t T D) : bool :=
  (0 <? Field.nRows F)%Z && (0 <? Field.nCols F)%Z
  && (length (Field.grid F) =? Z.to_nat (Field.nRows F))%nat
  && forallb (fun r => (length r =? Z.to_nat (Field.nCols F))%nat
                       && forallb slot_ok r) (Field.grid F).

(** The two flags are the ones the base constructor derives. *)
Definition flags_ok {T D} (F : Field.t T D) : bool :=
  Bool.eqb (Field.isContinuous F)
           (JS.geb (Field.xurCorner F - Field.xllCorner F) 360)
  && Bool.eqb (Field.longitudeNeedsToBeWrapped F)
              (JS.gtb (Field.xurCorner F) 180).

(** What [_arrayTo2d] stores for the entry [z] of the flat array. *)
Definition stored (z : value Q) : value Q :=
  if Field._isValid z then z else null.

(** [this.grid[j][i]], [undefined] where the row is missing. *)
Definition cell {T D} (F : Field.t T D) (i j : Z) : value T :=
  match Field.row F j with
  | Some r => get r i
  | None => undefined
  end.

(** The grid [_arrayTo2d] builds from the flat array [zs]: entry [(j, i)] is
    the stored form of [zs[j * nCols + i]]. *)
Definition scalar_grid (zs : Array Q) (nRows nCols : Z) : list (Array Q) :=
  map (fun r =>
         map (fun c =>
                stored (get zs (0 + Z.of_nat r * Z.of_nat (Z.to_nat nCols)
                                + Z.of_nat c)))
             (seq 0 (Z.to_nat nCols)))
      (seq 0 (Z.to_nat nRows)).

(** What [_arraysTo2d] stores for the entries [u] and [v]. *)
Definition zipped (u v : value Q) : value Vector.t :=
  match u, v with
  | val u', val v' => val (Vector.mk u' v')
  | _, _ => null
  end.

Definition vector_grid (us vs : Array Q) (nRows nCols : Z)
  : list (Array Vector.t) :=
  map (fun r =>
         map (fun c =>
                let p := (0 + Z.of_nat r * Z.of_nat (Z.to_nat nCols)
                          + Z.of_nat c)%Z in
                zipped (get us p) (get vs p))
             (seq 0 (Z.to_nat nCols)))
      (seq 0 (Z.to_nat nRows)).

(** Every row index below [nRows] has a row, whose slots below [nCols] are
    not [undefined]. *)
Definition shaped {T D} (F : Field.t T D) : Prop :=
  forall j, (0 <= j < Field.nRows F)%Z ->
    exists r, Field.row F j = Some r /\
      forall i, (0 <= i < Field.nCols F)%Z -> slot_ok (get r i) = true.

End Built.

(** ** The fields of the examples *)

Module Scenario.

(** The 2 x 2 grid of the specification: values 1 2 / 3 4, unit cells,
    lower-left corner at the origin. *)
Definition params22 : Field.Params ScalarField.Data :=
  Field.mkParams 2 2 0 0 1 1 (Some [val 1; val 2; val 3; val 4]).

Definition F22 : ScalarField.t :=
  Field.mk 2 2 0 0 2 2 1 1 [[val 1; val 2]; [val 3; val 4]] false false
           None None (val 1, val 4) (Some [val 1; val 2; val 3; val 4]).

(** A filter: numbers above 1. *)
Definition above1 (z : value Q) : bool :=
  match z with val q => JS.gtb q 1 | _ => false end.

(** The same grid filtered by [above1]. *)
Definition F22_above1 : ScalarField.t :=
  Field.mk 2 2 0 0 2 2 1 1 [[val 1; val 2]; [val 3; val 4]] false false
           (Some above1) None (val 2, val 4)
           (Some [val 1; val 2; val 3; val 4]).

(** A global grid of 4 x 2 cells of 90 degrees, stored in [0, 360]. *)
Definition paramsGlobal : Field.Params ScalarField.Data :=
  Field.mkParams 4 2 0 (-90) 90 90
    (Some [val 1; val 2; val 3; val 4; val 5; val 6; val 7; val 8]).

Definition FGlobal : ScalarField.t :=
  Field.mk 4 2 0 (-90) 360 90 90 90
           [[val 1; val 2; val 3; val 4]; [val 5; val 6; val 7; val 8]]
           true true None None (val 1, val 8)
           (Some [val 1; val 2; val 3; val 4; val 5; val 6; val 7; val 8]).

(** A regional grid of 2 x 2 cells of 10 degrees that ends east of 180. *)
Definition paramsPacific : Field.Params ScalarField.Data :=
  Field.mkParams 2 2 170 0 10 10 (Some [val 1; val 2; val 3; val 4]).

Definition FPacific : ScalarField.t :=
  Field.mk 2 2 170 0 190 20 10 10 [[val 1; val 2]; [val 3; val 4]]
           false true None None (val 1, val 4)
           (Some [val 1; val 2; val 3; val 4]).

(** A descriptor that declares 2 x 2 cells and brings three values. *)
Definition zsShort : Array Q := [val 1; val 2; val 3].

Definition paramsShort : Field.Params ScalarField.Data :=
  Field.mkParams 2 2 0 0 1 1 (Some zsShort).

Definition FShort : ScalarField.t :=
  Field.mk 2 2 0 0 2 2 1 1 [[val 1; val 2]; [val 3; null]] false false
           None None (val 1, val 3) (Some zsShort).

(** Built-ins to run the examples: an integer square root, exact on the
    squares used, and a generator that always draws 1/4. *)
Definition builtins : Builtins :=
  {| Math_sqrt := fun q => inject_Z (Z.sqrt (Qfloor q));
     Math_random := fun _ => 1 # 4 |}.

(** A 2 x 2 wind field: the vector (3, 4) everywhere but in the lower-left
    cell, which has no data. *)
Definition paramsWind : Field.Params VectorField.Data :=
  Field.mkParams 2 2 0 0 1 1
    (Some [val 3; val 3; null; val 3], Some [val 4; val 4; val 4; val 4]).

Definition wind : Vector.t := Vector.mk 3 4.

Definition FWind : VectorField.t :=
  Field.mk 2 2 0 0 2 2 1 1
           [[val wind; val wind]; [null; val wind]] false false
           None None (val 5, val 5)
           (Some [val 3; val 3; null; val 3],
            Some [val 4; val 4; val 4; val 4]).

Definition animOptions : VectorFieldAnim.Options :=
  VectorFieldAnim.mkOptions 3 2 (1 # 10).

(** The whole map is in view. *)
Definition everywhere (lat lng : Q) : bool := true.

(** A particle older than [maxAge], never advanced so far. *)
Definition pOld : VectorFieldAnim.Particle :=
  VectorFieldAnim.mkParticle (1 # 2) (1 # 2) undefined undefined undefined 3.

(** A young particle in the cell without data. *)
Definition pNoData : VectorFieldAnim.Particle :=
  VectorFieldAnim.mkParticle (1 # 2) (1 # 2) undefined undefined undefined 0.

(** A particle in the cell without data whose age is [maxAge]. *)
Definition pNoDataAtMaxAge : VectorFieldAnim.Particle :=
  VectorFieldAnim.mkParticle (1 # 2) (1 # 2) undefined undefined undefined 2.

(** [pOld] after one tick that starts with no draw made. *)
Definition pOldMoved : VectorFieldAnim.Particle :=
  VectorFieldAnim.mkParticle (1 # 2) (3 # 2) (val (16 # 20)) (val (38 # 20))
                             (val 5) 1.

(** A young particle whose next position leaves the field. *)
Definition pLeaving : VectorFieldAnim.Particle :=
  VectorFieldAnim.mkParticle (19 # 10) (19 # 10) undefined undefined
                             undefined 0.

End Scenario.

(** ** The directions of a Vector *)

(** [Math_atan2] is [Math.atan2] and [Math_PI] is [Math.PI]. *)
Class Trig : Type := {
  Math_atan2 : Q -> Q -> Q;
  Math_PI : Q
}.

Module Bearing.

(** [x % y] on numbers: the remainder takes the sign of [x]. *)
Definition rem (x y : Q) : Q := x - y * inject_Z (JS.truncate (x / y)).

Definition directionTo {G : Trig} (this : Vector.t) : Q :=
  let verticalAngle := Math_atan2 (Vector.u this) (Vector.v this) in
  let inDegrees := verticalAngle * (180 / Math_PI) in
  if JS.ltb inDegrees 0 then inDegrees + 360 else inDegrees.

Definition directionFrom {G : Trig} (this : Vector.t) : Q :=
  let a := directionTo this in
  let opposite := rem (a + 180) 360 in
  opposite.

End Bearing.

(** ** The methods of a Cell *)

Module CellOps.

(** The value of a cell is a Number or a Vector. *)
Inductive datum : Type :=
| Num (n : Q)
| Vec (w : Vector.t).

(** [_equalValues(value, anotherValue)].  [value.constructor] raises on
    [null] and [undefined]; the object literal evaluates both of its entries,
    so [anotherValue.u] raises on [null] and [undefined] as well. *)
Definition _equalValues (value anotherValue : JS.value datum)
  : completion bool :=
  match value with
  | val a =>
      match anotherValue with
      | val b =>
          match a, b with
          | Num x, Num y => Return (Qeq_bool x y)
          | Vec x, Vec y =>
              Return (Qeq_bool (Vector.u x) (Vector.u y)
                      && Qeq_bool (Vector.v x) (Vector.v y))
          | _, _ => Return false
          end
      | _ => Throw TypeError
      end
  | _ => Throw TypeError
  end.

Section Equals.

(** [center.equals(otherCenter)] of Leaflet's [LatLng]. *)
Variable latLng_equals : Q * Q -> Q * Q -> bool.

Definition equals (this anotherCell : Cell.t datum) : completion bool :=
  if latLng_equals (Cell.center this) (Cell.center anotherCell)
  then
    same <- _equalValues (Cell.value this) (Cell.value anotherCell) ;;
    Return (same
            && Qeq_bool (Cell.xSize this) (Cell.xSize anotherCell)
            && Qeq_bool (Cell.ySize this) (Cell.ySize anotherCell))
  else Return false.

End Equals.


End CellOps.

(** ** Fields derived from other fields *)

Module Derived.

(** [VectorField._paramsFromScalarFields(u, v)] *)
Definition _paramsFromScalarFields (u v : ScalarField.t)
  : Field.Params VectorField.Data :=
  Field.mkParams (Field.nCols u) (Field.nRows u)
                 (Field.xllCorner u) (Field.yllCorner u)
                 (Field.cellXSize u) (Field.cellYSize u)
                 (Field.data u, Field.data v).

(** The body shared by [fromASCIIGrids], [fromGeoTIFFs] and
    [fromMultibandGeoTIFF] once the two scalar fields are read. *)
Definition fromScalarFields {B : Builtins} (u v : ScalarField.t)
  : completion VectorField.t :=
  VectorField.new (_paramsFromScalarFields u v).

(** The [type] of [getScalarField]. *)
Inductive Kind : Type := magnitude | directionTo | directionFrom.

Definition _getFunctionFor {B : Builtins} {G : Trig} (type : Kind)
  (u v : Q) : Q :=
  let uv := Vector.mk u v in
  match type with
  | magnitude => Vector.magnitude uv
  | directionTo => Bearing.directionTo uv
  | directionFrom => Bearing.directionFrom uv
  end.

(** The loop of [_applyOnField]: [n] cells are still to be visited, [i] is
    the next one. *)
Fixpoint apply_loop (func : Q -> Q -> Q) (us vs : option (Array Q))
  (n : nat) (i : Z) (zs : Array Q) : completion (Array Q) :=
  match n with
  | O => Return zs
  | S n' =>
      u <- read us i ;;
      v <- read vs i ;;
      apply_loop func us vs n' (i + 1)%Z
        (zs ++ [match u, v with
                | val u', val v' => val (func u' v')
                | _, _ => null
                end])
  end.

Definition _applyOnField (F : VectorField.t) (func : Q -> Q -> Q)
  : completion (Array Q) :=
  let n := Field.numCells F in
  apply_loop func (fst (Field.data F)) (snd (Field.data F))
             (Z.to_nat n) 0%Z [].

(** [getScalarField(type)]; the descriptor kept in [this.params] has the
    values of the fields of the object. *)
Definition getScalarField {B : Builtins} {G : Trig} (F : VectorField.t)
  (type : Kind) : completion ScalarField.t :=
  let f := _getFunctionFor type in
  zs <- _applyOnField F f ;;
  ScalarField.new
    (Field.mkParams (Field.nCols F) (Field.nRows F)
                    (Field.xllCorner F) (Field.yllCorner F)
                    (Field.cellXSize F) (Field.cellYSize F) (Some zs)).

End Derived.

(** ** Notions used to state the properties of the geometry *)

Module Geometry.

(** The upper-right corner is the one the base constructor derives. *)
Definition corners_ok {T D} (F : Field.t T D) : Prop :=
  Field.xurCorner F
  == Field.xllCorner F + inject_Z (Field.nCols F) * Field.cellXSize F
  /\ Field.yurCorner F
     == Field.yllCorner F + inject_Z (Field.nRows F) * Field.cellYSize F.

(** Cells have a positive size. *)
Definition cells_positive {T D} (F : Field.t T D) : Prop :=
  0 < Field.cellXSize F /\ 0 < Field.cellYSize F.

(** Neither a filter nor a mask is set. *)
Definition plain {T D} (F : Field.t T D) : Prop :=
  Field._inFilter F = None /\ Field._spatialMask F = None.

(** [(lon, lat)] lies in the footprint of the cell [(i, j)]: west and north
    edges included, east and south edges excluded. *)
Definition in_footprint {T D} (F : Field.t T D) (i j : Z) (lon lat : Q)
  : Prop :=
  Field.xllCorner F + inject_Z i * Field.cellXSize F <= lon
  /\ lon < Field.xllCorner F + inject_Z (i + 1) * Field.cellXSize F
  /\ Field.yurCorner F - inject_Z (j + 1) * Field.cellYSize F < lat
  /\ lat <= Field.yurCorner F - inject_Z j * Field.cellYSize F.

(** The cell that [getCells] makes for the indexes [(i, j)]. *)
Definition cell_at {T D} (F : Field.t T D) (i j : Z) : Cell.t T :=
  Cell.mk (Field._latitudeAtY F j, Field._longitudeAtX F i)
          (Built.cell F i j) (Field.cellXSize F) (Field.cellYSize F).

(** [(lon, lat)] is the centre of a cell of the grid. *)
Definition on_grid {T D} (F : Field.t T D) (lonlat : Q * Q) : Prop :=
  exists i j : Z,
    (0 <= i < Field.nCols F)%Z /\ (0 <= j < Field.nRows F)%Z
    /\ lonlat = Field._lonLatAtIndexes F i j.

(** A particle as [_prepareParticlePaths] makes it: on a cell centre, with
    an age below [maxAge], never advanced. *)
Definition fresh (field : VectorField.t) (options : VectorFieldAnim.Options)
  (par : VectorFieldAnim.Particle) : Prop :=
  on_grid field (VectorFieldAnim.x par, VectorFieldAnim.y par)
  /\ (0 <= VectorFieldAnim.age par < VectorFieldAnim.maxAge options)%Z
  /\ VectorFieldAnim.xt par = undefined
  /\ VectorFieldAnim.yt par = undefined
  /\ VectorFieldAnim.m par = undefined.

(** The value [z] passes the filter [f] ([null] stands for no filter). *)
Definition passes {T} (f : option (value T -> bool)) (z : value T) : bool :=
  match f with
  | Some g => g z
  | None => true
  end.

End Geometry.

(** Built-ins to run the examples: an arc tangent that is exact on the four
    axes, with 355/113 for pi. *)
Module Scenario2.

Definition trig : Trig :=
  {| Math_atan2 := fun y x =>
       if Qeq_bool y 0 then (if JS.ltb x 0 then 355 # 113 else 0)
       else if JS.ltb y 0 then - (355 # 226) else 355 # 226;
     Math_PI := 355 # 113 |}.

(** The vector pointing west. *)
Definition west : Vector.t := Vector.mk (-1) 0.

(** A field without rows. *)
Definition paramsNoRows : Field.Params ScalarField.Data :=
  Field.mkParams 2 0 0 0 1 1 (Some []).

Definition FNoRows : ScalarField.t :=
  Field.mk 2 0 0 0 2 0 1 1 [] false false None None
           (undefined, undefined) (Some []).

Definition cellA : Cell.t CellOps.datum :=
  Cell.mk (1, 2) (val (CellOps.Num 5)) 1 1.

Definition cellNoData : Cell.t CellOps.datum :=
  Cell.mk (1, 2) null 1 1.

(** Exact comparison of two centres. *)
Definition same_centre (a b : Q * Q) : bool :=
  Qeq_bool (fst a) (fst b) && Qeq_bool (snd a) (snd b).

(** A young particle in a cell with data, and the particle after one step
    of the timer. *)
Definition pYoung : VectorFieldAnim.Particle :=
  VectorFieldAnim.mkParticle (1 # 2) (3 # 2) undefined undefined undefined 0.

End Scenario2.

(** ** Notions and examples for the respawn of a particle *)

Module Respawn.

(** What the tick that starts with [k] draws made does to a particle [par]
    that is older than [maxAge]: it is given the age 0 and the centre of the
    cell that the next two draws select, and is sampled there in the same
    pass; it leaves the tick with the age 1 when the advance from the new
    position succeeds, and with the age [maxAge + 1] when the field has no
    value there or at the candidate position. *)
Definition outcome {B : Builtins} (field : VectorField.t)
  (options : VectorFieldAnim.Options) (par : VectorFieldAnim.Particle)
  (k : nat) : Prop :=
  exists q par',
    VectorFieldAnim.entering field options par k = (q, S (S k))
    /\ VectorFieldAnim.age q = 0%Z
    /\ VectorFieldAnim.x q
       = Field._longitudeAtX field
           (ToInt32 (Math_random k * inject_Z (Field.nCols field)))
    /\ VectorFieldAnim.y q
       = Field._latitudeAtY field
           (ToInt32 (Math_random (S k) * inject_Z (Field.nRows field)))
    /\ VectorFieldAnim.moveParticle field options par k
       = Return (par', S (S k))
    /\ VectorFieldAnim.x par' = VectorFieldAnim.x q
    /\ VectorFieldAnim.y par' = VectorFieldAnim.y q
    /\ ((exists vec,
            VectorFieldAnim.advances field options q vec
            /\ VectorFieldAnim.age par' = 1%Z)
        \/ (VectorFieldAnim.stranded field options q
            /\ VectorFieldAnim.age par'
               = (VectorFieldAnim.maxAge options + 1)%Z)).

(** A 2 x 2 wind field without data. *)
Definition paramsCalm : Field.Params VectorField.Data :=
  Field.mkParams 2 2 0 0 1 1
    (Some [null; null; null; null], Some [null; null; null; null]).

Definition FCalm : VectorField.t :=
  Field.mk 2 2 0 0 2 2 1 1 [[null; null]; [null; null]] false false
           None None (undefined, undefined)
           (Some [null; null; null; null], Some [null; null; null; null]).

(** [Scenario.pNoData] after one step of the timer on [FCalm]. *)
Definition pStuck1 : VectorFieldAnim.Particle :=
  VectorFieldAnim.mkParticle (1 # 2) (1 # 2) undefined undefined undefined 3.

(** The particle after the second step, and after every later one. *)
Definition pStuck2 : VectorFieldAnim.Particle :=
  VectorFieldAnim.mkParticle (1 # 2) (3 # 2) undefined undefined undefined 3.

End Respawn.

(** ** A descriptor with too many values *)

Module Oversized.

(** A descriptor that declares 2 x 2 cells and brings five values. *)
Definition zsLong : Array Q := [val 1; val 2; val 3; val 4; val 5].

Definition paramsLong : Field.Params ScalarField.Data :=
  Field.mkParams 2 2 0 0 1 1 (Some zsLong).

(** The field the constructor returns: the fifth value is not in the grid
    and is the maximum of the range. *)
Definition FLong : ScalarField.t :=
  Field.mk 2 2 0 0 2 2 1 1 [[val 1; val 2]; [val 3; val 4]] false false
           None None (val 1, val 5) (Some zsLong).

End Oversized.

(** * Properties *)

(** ** Helper lemmas on arrays *)

Lemma nth_error_tabulate {A} (f : nat -> A) (n k : nat) :
  (k < n)%nat -> nth_error (map f (seq 0 n)) k = Some (f k).
Proof.
  intros Hk. rewrite nth_error_map.
  rewrite (nth_error_nth' (seq 0 n) 0%nat) by (rewrite length_seq; exact Hk).
  rewrite seq_nth by exact Hk. reflexivity.
Qed.

Lemma tabulate_shift {A} (f : nat -> A) (n : nat) :
  map f (seq 0 (S n)) = f 0%nat :: map (fun k => f (S k)) (seq 0 n).
Proof.
  cbn [seq map]. f_equal. rewrite <- seq_shift, map_map. reflexivity.
Qed.

Lemma get_tabulate {T} (f : nat -> value T) (n : nat) (k : Z) :
  (0 <= k < Z.of_nat n)%Z ->
  get (map f (seq 0 n)) k = f (Z.to_nat k).
Proof.
  intros Hk. unfold get.
  destruct (Z.ltb_spec k 0); [lia|].
  apply nth_error_nth. apply nth_error_tabulate. lia.
Qed.

(** ** The grid of a ScalarField *)

Lemma fill_row_some (zs : Array Q) (n : nat) :
  forall (p : Z) (row : Array Q),
    ScalarField.fill_row (Some zs) n p row
    = Return (row ++ map (fun k => Built.stored (get zs (p + Z.of_nat k)))
                         (seq 0 n),
              (p + Z.of_nat n)%Z).
Proof.
  induction n as [|n IH]; intros p row.
  - cbn. rewrite app_nil_r, Z.add_0_r. reflexivity.
  - cbn [ScalarField.fill_row read JS.bind]. rewrite IH.
    rewrite tabulate_shift, <- app_assoc. cbn [app].
    f_equal. f_equal.
    + f_equal. f_equal.
      * unfold Built.stored. rewrite Z.add_0_r. reflexivity.
      * apply map_ext. intros k. do 2 f_equal. lia.
    + lia.
Qed.

Lemma fill_grid_some (zs : Array Q) (nCols : Z) (n : nat) :
  forall (p : Z) (grid : list (Array Q)),
    ScalarField.fill_grid (Some zs) nCols n p grid
    = Return
        (grid ++
         map (fun r =>
                map (fun c =>
                       Built.stored
                         (get zs (p + Z.of_nat r * Z.of_nat (Z.to_nat nCols)
                                  + Z.of_nat c)))
                    (seq 0 (Z.to_nat nCols)))
             (seq 0 n)).
Proof.
  induction n as [|n IH]; intros p grid.
  - cbn. rewrite app_nil_r. reflexivity.
  - cbn [ScalarField.fill_grid]. rewrite fill_row_some.
    cbn [JS.bind fst snd app]. rewrite IH.
    rewrite tabulate_shift, <- app_assoc. cbn [app].
    do 3 f_equal.
    + apply map_ext. intros c. do 2 f_equal. lia.
    + apply map_ext. intros r. apply map_ext. intros c. do 2 f_equal. lia.
Qed.

Lemma ScalarField_new_some (p : Field.Params ScalarField.Data) (zs : Array Q) :
  Field.p_data p = Some zs ->
  ScalarField.new p
  = Return
      (Field.set_range (d3.min zs, d3.max zs)
         (Field.set_grid
            (Built.scalar_grid zs (Field.p_nRows p) (Field.p_nCols p))
            (Field.init p))).
Proof.
  intros Hzs. unfold ScalarField.new, ScalarField._buildGrid,
    ScalarField._arrayTo2d.
  cbn [Field.init Field.data Field.nRows Field.nCols]. rewrite Hzs.
  rewrite fill_grid_some. cbn [JS.bind app].
  unfold Field._updateRange. cbn [Field._calculateRange ScalarField.impl].
  unfold ScalarField._calculateRange.
  cbn [Field.set_grid Field.data Field._inFilter Field.init].
  rewrite Hzs. reflexivity.
Qed.

Lemma forallb_tabulate {A} (P : A -> bool) (f : nat -> A) (n : nat) :
  (forall k, (k < n)%nat -> P (f k) = true) ->
  forallb P (map f (seq 0 n)) = true.
Proof.
  intros H. apply forallb_forall. intros a Ha.
  apply in_map_iff in Ha. destruct Ha as [k [<- Hk]].
  apply in_seq in Hk. apply H. lia.
Qed.

Lemma stored_slot_ok (z : value Q) : Built.slot_ok (Built.stored z) = true.
Proof. destruct z; reflexivity. Qed.

Lemma zipped_slot_ok (u v : value Q) : Built.slot_ok (Built.zipped u v) = true.
Proof. destruct u, v; reflexivity. Qed.

Lemma ScalarField_new_grid_ok (p : Field.Params ScalarField.Data)
  (F : ScalarField.t) :
  ScalarField.new p = Return F ->
  (0 < Field.p_nRows p)%Z -> (0 < Field.p_nCols p)%Z ->
  Built.grid_ok F = true.
Proof.
  intros Hnew Hr Hc.
  destruct (Field.p_data p) as [zs|] eqn:Hzs.
  - rewrite (ScalarField_new_some p zs Hzs) in Hnew.
    injection Hnew as <-. unfold Built.grid_ok.
    cbn [Field.set_range Field.set_grid Field.init Field.nRows Field.nCols
         Field.grid].
    unfold Built.scalar_grid. rewrite length_map, length_seq.
    rewrite Nat.eqb_refl.
    destruct (Z.ltb_spec 0 (Field.p_nRows p)); [|lia].
    destruct (Z.ltb_spec 0 (Field.p_nCols p)); [|lia].
    cbn [andb]. apply forallb_tabulate. intros r _.
    rewrite length_map, length_seq, Nat.eqb_refl. cbn [andb].
    apply forallb_tabulate. intros c _. apply stored_slot_ok.
  - unfold ScalarField.new, ScalarField._buildGrid, ScalarField._arrayTo2d
      in Hnew.
    cbn [Field.init Field.data Field.nRows Field.nCols] in Hnew.
    rewrite Hzs in Hnew.
    destruct (Z.to_nat (Field.p_nRows p)) as [|n] eqn:En; [lia|].
    destruct (Z.to_nat (Field.p_nCols p)) as [|c] eqn:Ec; [lia|].
    cbn in Hnew. rewrite Ec in Hnew. cbn in Hnew. discriminate.
Qed.

Lemma ScalarField_new_flags_ok (p : Field.Params ScalarField.Data)
  (F : ScalarField.t) :
  ScalarField.new p = Return F -> Built.flags_ok F = true.
Proof.
  intros Hnew. unfold ScalarField.new in Hnew.
  destruct (ScalarField._buildGrid (Field.init p)) as [g|e]; [|discriminate].
  cbn [JS.bind] in Hnew. unfold Field._updateRange in Hnew.
  destruct (Field._calculateRange _) as [r|e]; [|discriminate].
  injection Hnew as <-. unfold Built.flags_ok. cbn.
  rewrite !Bool.eqb_reflx. reflexivity.
Qed.

(** ** Rows and slots of a well-shaped grid *)

Lemma get_slot_ok {T} (r : Array T) (i : Z) :
  forallb Built.slot_ok r = true ->
  (0 <= i < Z.of_nat (length r))%Z ->
  Built.slot_ok (get r i) = true.
Proof.
  intros Hall Hi. unfold get. destruct (Z.ltb_spec i 0); [lia|].
  rewrite forallb_forall in Hall. apply Hall. apply nth_In. lia.
Qed.

Lemma grid_ok_shaped {T D} (F : Field.t T D) :
  Built.grid_ok F = true -> Built.shaped F.
Proof.
  unfold Built.grid_ok. intros H.
  apply andb_prop in H. destruct H as [H Hrows].
  apply andb_prop in H. destruct H as [H Hlen].
  apply Nat.eqb_eq in Hlen.
  intros j Hj. unfold Field.row. destruct (Z.ltb_spec j 0); [lia|].
  destruct (nth_error (Field.grid F) (Z.to_nat j)) as [r|] eqn:Er.
  - exists r. split; [reflexivity|]. intros i Hi.
    rewrite forallb_forall in Hrows.
    specialize (Hrows r (nth_error_In _ _ Er)).
    apply andb_prop in Hrows. destruct Hrows as [Hl Hs].
    apply Nat.eqb_eq in Hl. apply get_slot_ok; [exact Hs|lia].
  - apply nth_error_None in Er. lia.
Qed.

Lemma grid_ok_dims {T D} (F : Field.t T D) :
  Built.grid_ok F = true -> (0 < Field.nRows F)%Z /\ (0 < Field.nCols F)%Z.
Proof.
  unfold Built.grid_ok. intros H.
  apply andb_prop in H. destruct H as [H _].
  apply andb_prop in H. destruct H as [H _].
  apply andb_prop in H. destruct H as [Hr Hc].
  apply Z.ltb_lt in Hr. apply Z.ltb_lt in Hc. split; assumption.
Qed.

(** ** The clamps *)

Lemma _clampColumnIndex_range {T D} (F : Field.t T D) (ii : Z) :
  (0 < Field.nCols F)%Z ->
  (0 <= Field._clampColumnIndex F ii < Field.nCols F)%Z.
Proof.
  intros Hc. unfold Field._clampColumnIndex.
  destruct (Z.ltb_spec ii 0); destruct (Z.gtb_spec ii (Field.nCols F - 1));
    lia.
Qed.

Lemma _clampRowIndex_range {T D} (F : Field.t T D) (jj : Z) :
  (0 < Field.nRows F)%Z ->
  (0 <= Field._clampRowIndex F jj < Field.nRows F)%Z.
Proof.
  intros Hr. unfold Field._clampRowIndex.
  destruct (Z.ltb_spec jj 0); destruct (Z.gtb_spec jj (Field.nRows F - 1));
    lia.
Qed.

Lemma _clampColumnIndex_cases {T D} (F : Field.t T D) (ii : Z) :
  (0 < Field.nCols F)%Z ->
  Field._clampColumnIndex F ii
  = if (ii <? 0)%Z then 0%Z
    else if (ii >? Field.nCols F - 1)%Z then (Field.nCols F - 1)%Z else ii.
Proof.
  intros Hc. unfold Field._clampColumnIndex.
  destruct (Z.ltb_spec ii 0); destruct (Z.gtb_spec ii (Field.nCols F - 1));
    try reflexivity; lia.
Qed.

Lemma _clampRowIndex_cases {T D} (F : Field.t T D) (jj : Z) :
  (0 < Field.nRows F)%Z ->
  Field._clampRowIndex F jj
  = if (jj <? 0)%Z then 0%Z
    else if (jj >? Field.nRows F - 1)%Z then (Field.nRows F - 1)%Z else jj.
Proof.
  intros Hr. unfold Field._clampRowIndex.
  destruct (Z.ltb_spec jj 0); destruct (Z.gtb_spec jj (Field.nRows F - 1));
    try reflexivity; lia.
Qed.

(** ** valueAt and hasValueAt return on a built field *)

Lemma _valueAtIndexes_shaped {T D} (F : Field.t T D) (i j : Z) :
  Built.shaped F ->
  (0 <= i < Field.nCols F)%Z -> (0 <= j < Field.nRows F)%Z ->
  exists v, Field._valueAtIndexes F i j = Return v
            /\ v = Built.cell F i j /\ Built.slot_ok v = true.
Proof.
  intros Hs Hi Hj. destruct (Hs j Hj) as [r [Hr Hslots]].
  exists (get r i). unfold Field._valueAtIndexes, Built.cell. rewrite Hr.
  repeat split. apply Hslots. exact Hi.
Qed.

Lemma valueAt_returns {T D} (F : Field.t T D) (lon lat : Q) :
  Built.grid_ok F = true ->
  exists v, Field.valueAt F lon lat = Return v /\ Built.slot_ok v = true.
Proof.
  intros Hok. pose proof (grid_ok_shaped F Hok) as Hs.
  destruct (grid_ok_dims F Hok) as [Hr Hc].
  unfold Field.valueAt.
  destruct (Field.notContains F lon lat); [exists null; split; reflexivity|].
  destruct (Field._getDecimalIndexes F lon lat) as [i j].
  destruct (_valueAtIndexes_shaped F
              (Field._clampColumnIndex F (Math_floor i))
              (Field._clampRowIndex F (Math_floor j)) Hs
              (_clampColumnIndex_range F _ Hc)
              (_clampRowIndex_range F _ Hr)) as [v [Hv [_ Hsl]]].
  rewrite Hv. cbn [JS.bind].
  destruct (Field._inFilter F) as [f|].
  - destruct (f v); cbn [negb].
    + exists v. split; [reflexivity|exact Hsl].
    + exists null. split; reflexivity.
  - exists v. split; [reflexivity|exact Hsl].
Qed.

Lemma hasValueAt_returns {T D} (F : Field.t T D) (lon lat : Q) :
  Built.grid_ok F = true ->
  exists b, Field.hasValueAt F lon lat = Return b.
Proof.
  intros Hok. destruct (valueAt_returns F lon lat Hok) as [v [Hv _]].
  unfold Field.hasValueAt. rewrite Hv. cbn [JS.bind]. eexists. reflexivity.
Qed.

(** The fields of the examples are the ones the constructors return. *)
Lemma scenario_fields_built :
  ScalarField.new Scenario.params22 = Return Scenario.F22
  /\ Field.setFilter (Some Scenario.above1) Scenario.F22
     = Return Scenario.F22_above1
  /\ ScalarField.new Scenario.paramsGlobal = Return Scenario.FGlobal
  /\ ScalarField.new Scenario.paramsPacific = Return Scenario.FPacific
  /\ @VectorField.new Scenario.builtins Scenario.paramsWind
     = Return Scenario.FWind.
Proof. repeat split; vm_compute; reflexivity. Qed.

(** ** Nearest value and its presence test *)

Lemma valueAt_passes_filter {T D} (F : Field.t T D) (lon lat : Q)
  (v : value T) (f : value T -> bool) :
  Field.valueAt F lon lat = Return v ->
  Field._inFilter F = Some f ->
  v <> null ->
  f v = true.
Proof.
  unfold Field.valueAt. intros Hv Hf Hnn.
  destruct (Field.notContains F lon lat).
  - injection Hv as <-. contradiction.
  - destruct (Field._getDecimalIndexes F lon lat) as [i j].
    destruct (Field._valueAtIndexes F _ _) as [w|e]; [|discriminate].
    cbn [JS.bind] in Hv. rewrite Hf in Hv.
    destruct (f w) eqn:Hfw; cbn [negb] in Hv; injection Hv as <-.
    + exact Hfw.
    + contradiction.
Qed.

(** C8: on a field as the constructors build it, [valueAt] and [hasValueAt]
    both return at every coordinate (in particular at every coordinate inside
    the extent that the filter lets through), and [hasValueAt] answers [true]
    exactly when the result of [valueAt] is not [null]; that result is never
    [undefined]. *)
Theorem hasValueAt_iff_valueAt_not_null {T D} (F : Field.t T D) (lon lat : Q) :
  Built.grid_ok F = true ->
  exists (v : value T) (b : bool),
    Field.valueAt F lon lat = Return v
    /\ Field.hasValueAt F lon lat = Return b
    /\ (b = true <-> v <> null)
    /\ v <> undefined.
Proof.
  intros Hok. destruct (valueAt_returns F lon lat Hok) as [v [Hv Hsl]].
  exists v. unfold Field.hasValueAt. rewrite Hv. cbn [JS.bind].
  eexists. split; [reflexivity|]. split; [reflexivity|]. split.
  - split.
    + intros Hb. apply andb_prop in Hb. destruct Hb as [Hnn _].
      destruct v; cbn in Hnn; congruence.
    + intros Hnn. apply andb_true_intro. split.
      * destruct v; cbn; congruence.
      * destruct (Field._inFilter F) as [f|] eqn:Hf; [|reflexivity].
        exact (valueAt_passes_filter F lon lat v f Hv Hf Hnn).
  - destruct v; cbn in Hsl; congruence.
Qed.

Lemma hasValueAt_iff_valueAt_not_null_witness :
  exists (v : value Q) (b : bool),
    Field.valueAt Scenario.F22_above1 (3 # 2) (3 # 2) = Return v
    /\ Field.hasValueAt Scenario.F22_above1 (3 # 2) (3 # 2) = Return b
    /\ (b = true <-> v <> null)
    /\ v <> undefined.
Proof.
  apply (hasValueAt_iff_valueAt_not_null Scenario.F22_above1 (3 # 2) (3 # 2)).
  reflexivity.
Defined.

(** ** The filter and the interpolation *)

Lemma setFilter_inv {T D} {impl : Field.Impl T D} (F F' : Field.t T D)
  (f : option (value T -> bool)) :
  Field.setFilter f F = Return F' ->
  exists r, F' = Field.set_range r (Field.set_inFilter f F).
Proof.
  unfold Field.setFilter, Field._updateRange. intros H.
  destruct (Field._calculateRange (Field.set_inFilter f F)) as [r|e];
    [|discriminate].
  injection H as <-. exists r. reflexivity.
Qed.

(** C10: whatever filter [setFilter] installs (or removes), the interpolated
    value at every coordinate is the one of the field before the call; on the
    2 x 2 grid the filter "above 1" does change [valueAt], [hasValueAt] and
    [range]. *)
Theorem interpolatedValueAt_ignores_filter :
  (forall (T D : Type) (impl : Field.Impl T D) (F F' : Field.t T D)
          (f : option (value T -> bool)) (lon lat : Q),
      Field.setFilter f F = Return F' ->
      Field.interpolatedValueAt F' lon lat = Field.interpolatedValueAt F lon lat)
  /\ (Field.valueAt Scenario.F22 (1 # 2) (3 # 2) = Return (val 1)
      /\ Field.valueAt Scenario.F22_above1 (1 # 2) (3 # 2) = Return null)
  /\ (Field.hasValueAt Scenario.F22 (1 # 2) (3 # 2) = Return true
      /\ Field.hasValueAt Scenario.F22_above1 (1 # 2) (3 # 2) = Return false)
  /\ (Field.range Scenario.F22 = (val 1, val 4)
      /\ Field.range Scenario.F22_above1 = (val 2, val 4)).
Proof.
  split.
  - intros T D impl F F' f lon lat H.
    destruct (setFilter_inv F F' f H) as [r ->]. reflexivity.
  - repeat split; vm_compute; reflexivity.
Qed.

Lemma interpolatedValueAt_ignores_filter_witness :
  Field.interpolatedValueAt Scenario.F22_above1 (1 # 2) (3 # 2)
  = Field.interpolatedValueAt Scenario.F22 (1 # 2) (3 # 2).
Proof.
  apply (proj1 interpolatedValueAt_ignores_filter Q ScalarField.Data
           ScalarField.impl Scenario.F22 Scenario.F22_above1
           (Some Scenario.above1) (1 # 2) (3 # 2)).
  vm_compute. reflexivity.
Defined.

(** ** Extent of a field stored east of 180 *)

Lemma gtb_true_iff (x y : Q) : JS.gtb x y = true <-> y < x.
Proof.
  unfold JS.gtb. rewrite negb_true_iff. split.
  - intros H. apply Qnot_le_lt. intros Hle.
    apply Qle_bool_iff in Hle. congruence.
  - intros H. destruct (Qle_bool x y) eqn:E; [|reflexivity].
    apply Qle_bool_iff in E. exfalso. exact (Qlt_not_le _ _ H E).
Qed.

Lemma geb_true_iff (x y : Q) : JS.geb x y = true <-> y <= x.
Proof. unfold JS.geb. apply Qle_bool_iff. Qed.

Lemma geb_false_iff (x y : Q) : JS.geb x y = false <-> x < y.
Proof.
  unfold JS.geb. split.
  - intros H. apply Qnot_le_lt. intros Hle.
    apply Qle_bool_iff in Hle. congruence.
  - intros H. destruct (Qle_bool y x) eqn:E; [|reflexivity].
    apply Qle_bool_iff in E. exfalso. exact (Qlt_not_le _ _ H E).
Qed.

(** C5: for a field whose upper-right longitude exceeds 180, [extent()] has
    the longitudes -180 and 180 when the field is continuous, and both
    corners shifted by -360 when it is not; the latitudes are the raw corners
    in both cases. *)
Theorem extent_of_wrapped_field {T D} (F : Field.t T D) :
  Built.flags_ok F = true ->
  180 < Field.xurCorner F ->
  (360 <= Field.xurCorner F - Field.xllCorner F ->
     Field.extent F = (-180, Field.yllCorner F, 180, Field.yurCorner F))
  /\ (Field.xurCorner F - Field.xllCorner F < 360 ->
        Field.extent F
        = (Field.xllCorner F - 360, Field.yllCorner F,
           Field.xurCorner F - 360, Field.yurCorner F)).
Proof.
  intros Hflags Hwrap. unfold Built.flags_ok in Hflags.
  apply andb_prop in Hflags. destruct Hflags as [Hc Hw].
  apply Bool.eqb_prop in Hc. apply Bool.eqb_prop in Hw.
  apply gtb_true_iff in Hwrap. rewrite Hwrap in Hw.
  unfold Field.extent, Field._getWrappedLongitudes. rewrite Hw, Hc.
  split; intros H.
  - apply geb_true_iff in H. rewrite H. reflexivity.
  - apply geb_false_iff in H. rewrite H. reflexivity.
Qed.

Lemma extent_of_wrapped_field_witness :
  Field.extent Scenario.FGlobal = (-180, -90, 180, 90)
  /\ Field.extent Scenario.FPacific = (170 - 360, 0, 190 - 360, 20).
Proof.
  split.
  - apply (proj1 (extent_of_wrapped_field Scenario.FGlobal
                    eq_refl eq_refl)).
    vm_compute. discriminate.
  - apply (proj2 (extent_of_wrapped_field Scenario.FPacific
                    eq_refl eq_refl)).
    reflexivity.
Defined.

(** ** Bilinear interpolation at fractional indexes *)

Lemma interpolatedValueAtIndexes_cells {T D} {impl : Field.Impl T D}
  (F : Field.t T D) (i j : Q) :
  let fi := Math_floor i in
  let ci := Field._clampColumnIndex F
              (if Field.isContinuous F && (fi + 1 >=? Field.nCols F)%Z
               then 0 else fi + 1)%Z in
  let fj := Field._clampRowIndex F (Math_floor j) in
  let cj := Field._clampRowIndex F (fj + 1) in
  Field.interpolatedValueAtIndexes F i j
  = match Built.cell F fi fj, Built.cell F ci fj,
          Built.cell F fi cj, Built.cell F ci cj with
    | val g00, val g10, val g01, val g11 =>
        val (Field._doInterpolation (i - inject_Z fi) (j - inject_Z fj)
                                    g00 g10 g01 g11)
    | _, _, _, _ => null
    end.
Proof.
  intros fi ci fj cj.
  unfold Field.interpolatedValueAtIndexes, Field._getFourSurroundingIndexes,
    Field._getFourSurroundingValues, Built.cell.
  fold fi. fold ci. fold fj. fold cj.
  destruct (Field.row F fj) as [r|]; [|reflexivity].
  destruct (get r fi); [reflexivity|reflexivity|].
  destruct (get r ci); [reflexivity|reflexivity|].
  destruct (Field.row F cj) as [r'|]; [|reflexivity].
  destruct (get r' fi); [reflexivity|reflexivity|].
  destruct (get r' ci); reflexivity.
Qed.

(** C4: [interpolatedValueAtIndexes(i, j)] reads the grid at the columns
    [fi = floor(i)] and [ci] ([fi + 1], or column 0 when the field is
    continuous and [fi + 1 >= nCols]; clamped) and at the rows [fj]
    ([floor(j)], clamped) and [cj] ([fj + 1], clamped).  When one of the four
    values is missing the result is [null]; otherwise it is the blend
    [g00(1-x)(1-y) + g10 x(1-y) + g01(1-x)y + g11 xy] with [x = i - fi] and
    [y = j - fj], taken on [u] and on [v] separately for a vector field.
    Inside the grid the clamps change nothing: the indexes are [floor(i)],
    [floor(i) + 1] (or 0 on the wrap), [floor(j)] and [floor(j) + 1]. *)
Theorem interpolatedValueAtIndexes_bilinear :
  (forall (F : ScalarField.t) (i j : Q),
      let fi := Math_floor i in
      let ci := Field._clampColumnIndex F
                  (if Field.isContinuous F && (fi + 1 >=? Field.nCols F)%Z
                   then 0 else fi + 1)%Z in
      let fj := Field._clampRowIndex F (Math_floor j) in
      let cj := Field._clampRowIndex F (fj + 1) in
      let x := i - inject_Z fi in
      let y := j - inject_Z fj in
      Field.interpolatedValueAtIndexes F i j
      = match Built.cell F fi fj, Built.cell F ci fj,
              Built.cell F fi cj, Built.cell F ci cj with
        | val g00, val g10, val g01, val g11 =>
            val (g00 * (1 - x) * (1 - y) + g10 * x * (1 - y)
                 + g01 * (1 - x) * y + g11 * x * y)
        | _, _, _, _ => null
        end)
  /\ (forall (B : Builtins) (F : VectorField.t) (i j : Q),
      let fi := Math_floor i in
      let ci := Field._clampColumnIndex F
                  (if Field.isContinuous F && (fi + 1 >=? Field.nCols F)%Z
                   then 0 else fi + 1)%Z in
      let fj := Field._clampRowIndex F (Math_floor j) in
      let cj := Field._clampRowIndex F (fj + 1) in
      let x := i - inject_Z fi in
      let y := j - inject_Z fj in
      Field.interpolatedValueAtIndexes F i j
      = match Built.cell F fi fj, Built.cell F ci fj,
              Built.cell F fi cj, Built.cell F ci cj with
        | val g00, val g10, val g01, val g11 =>
            val (Vector.mk
                   (Vector.u g00 * ((1 - x) * (1 - y))
                    + Vector.u g10 * (x * (1 - y))
                    + Vector.u g01 * ((1 - x) * y)
                    + Vector.u g11 * (x * y))
                   (Vector.v g00 * ((1 - x) * (1 - y))
                    + Vector.v g10 * (x * (1 - y))
                    + Vector.v g01 * ((1 - x) * y)
                    + Vector.v g11 * (x * y)))
        | _, _, _, _ => null
        end)
  /\ (forall (T D : Type) (F : Field.t T D) (i j : Q),
      (0 < Field.nCols F)%Z -> (0 < Field.nRows F)%Z ->
      (0 <= Math_floor j)%Z -> (Math_floor j + 1 <= Field.nRows F - 1)%Z ->
      (0 <= Math_floor i + 1)%Z ->
      Field._getFourSurroundingIndexes F i j
      = (Math_floor i,
         if (Math_floor i + 1 >=? Field.nCols F)%Z
         then (if Field.isContinuous F then 0 else Field.nCols F - 1)
         else Math_floor i + 1,
         Math_floor j,
         Math_floor j + 1)%Z).
Proof.
  split; [|split].
  - intros F i j. exact (interpolatedValueAtIndexes_cells F i j).
  - intros B F i j. exact (interpolatedValueAtIndexes_cells F i j).
  - intros T D F i j Hc Hr Hj0 Hj1 Hi.
    unfold Field._getFourSurroundingIndexes.
    rewrite !_clampRowIndex_cases by exact Hr.
    rewrite !_clampColumnIndex_cases by exact Hc.
    destruct (Z.ltb_spec (Math_floor j) 0); [lia|].
    destruct (Z.gtb_spec (Math_floor j) (Field.nRows F - 1)); [lia|].
    destruct (Z.ltb_spec (Math_floor j + 1) 0); [lia|].
    destruct (Z.gtb_spec (Math_floor j + 1) (Field.nRows F - 1)); [lia|].
    destruct (Z.geb_spec (Math_floor i + 1) (Field.nCols F)) as [Hge|Hlt].
    + destruct (Field.isContinuous F); cbn [andb].
      * destruct (Z.gtb_spec 0 (Field.nCols F - 1)); [lia|]. reflexivity.
      * destruct (Z.ltb_spec (Math_floor i + 1) 0); [lia|].
        destruct (Z.gtb_spec (Math_floor i + 1) (Field.nCols F - 1)); [|lia].
        reflexivity.
    + rewrite andb_false_r.
      destruct (Z.ltb_spec (Math_floor i + 1) 0); [lia|].
      destruct (Z.gtb_spec (Math_floor i + 1) (Field.nCols F - 1)); [lia|].
      reflexivity.
Qed.

Lemma interpolatedValueAtIndexes_bilinear_witness :
  Field._getFourSurroundingIndexes Scenario.FGlobal (7 # 2) (1 # 2)
  = (3, 0, 0, 1)%Z.
Proof.
  apply (proj2 (proj2 interpolatedValueAtIndexes_bilinear) Q ScalarField.Data
           Scenario.FGlobal (7 # 2) (1 # 2)); vm_compute; congruence.
Defined.

(** ** Interpolation at the centre of a cell *)

Lemma Math_floor_half (i : Z) (q : Q) :
  q == inject_Z i + (1 # 2) -> Math_floor q = i.
Proof.
  intros H. unfold Math_floor. rewrite H.
  unfold Qfloor, inject_Z, Qplus. cbn [Qnum Qden].
  symmetry. apply Z.div_unique with 1%Z; lia.
Qed.

(** The decimal indexes of the centre of the cell [(i, j)] are
    [(i + 1/2, j + 1/2)]. *)
Lemma centre_decimal_indexes {T D} (F : Field.t T D) (i j : Z) :
  0 < Field.cellXSize F -> 0 < Field.cellYSize F ->
  Field.longitudeNeedsToBeWrapped F = false ->
  fst (Field._getDecimalIndexes F (Field._longitudeAtX F i)
                                (Field._latitudeAtY F j))
  == inject_Z i + (1 # 2)
  /\ snd (Field._getDecimalIndexes F (Field._longitudeAtX F i)
                                   (Field._latitudeAtY F j))
     == inject_Z j + (1 # 2).
Proof.
  intros Hx Hy Hw.
  unfold Field._getDecimalIndexes, Field._longitudeAtX, Field._latitudeAtY.
  rewrite Hw. cbn [andb fst snd]. split; field; intros E.
  - rewrite E in Hx. discriminate.
  - rewrite E in Hy. discriminate.
Qed.

(** On a scalar field stored west of 180, the interpolated value at the
    centre of a cell that has a right and a lower neighbour is the mean of
    the cell and its three neighbours to the right and below, not the value
    of the cell. *)
Lemma interpolatedValueAt_centre (F : ScalarField.t) (i j : Z)
  (g00 g10 g01 g11 : Q) :
  0 < Field.cellXSize F -> 0 < Field.cellYSize F ->
  Field.longitudeNeedsToBeWrapped F = false ->
  (0 <= i)%Z -> (i + 1 < Field.nCols F)%Z ->
  (0 <= j)%Z -> (j + 1 < Field.nRows F)%Z ->
  Field.contains F (Field._longitudeAtX F i) (Field._latitudeAtY F j) = true ->
  Built.cell F i j = val g00 ->
  Built.cell F (i + 1) j = val g10 ->
  Built.cell F i (j + 1) = val g01 ->
  Built.cell F (i + 1) (j + 1) = val g11 ->
  JS.Qeqv (Field.interpolatedValueAt F (Field._longitudeAtX F i)
                                     (Field._latitudeAtY F j))
          (val ((g00 + g10 + g01 + g11) / 4)).
Proof.
  intros Hx Hy Hw Hi0 Hi1 Hj0 Hj1 Hin H00 H10 H01 H11.
  destruct (centre_decimal_indexes F i j Hx Hy Hw) as [Hqi Hqj].
  unfold Field.interpolatedValueAt, Field.notContains. rewrite Hin.
  cbn [negb].
  destruct (Field._getDecimalIndexes F _ _) as [qi qj]. cbn [fst snd] in *.
  rewrite interpolatedValueAtIndexes_cells.
  rewrite (Math_floor_half i qi Hqi), (Math_floor_half j qj Hqj).
  rewrite !_clampRowIndex_cases, !_clampColumnIndex_cases by lia.
  destruct (Z.geb_spec (i + 1) (Field.nCols F)); [lia|].
  rewrite andb_false_r.
  destruct (Z.ltb_spec (i + 1) 0); [lia|].
  destruct (Z.gtb_spec (i + 1) (Field.nCols F - 1)); [lia|].
  destruct (Z.ltb_spec j 0); [lia|].
  destruct (Z.gtb_spec j (Field.nRows F - 1)); [lia|].
  destruct (Z.ltb_spec (j + 1) 0); [lia|].
  destruct (Z.gtb_spec (j + 1) (Field.nRows F - 1)); [lia|].
  rewrite H00, H10, H01, H11.
  cbn [Field._doInterpolation ScalarField.impl JS.Qeqv].
  unfold ScalarField._doInterpolation. rewrite Hqi, Hqj. field.
Qed.

(** ** The 2 x 2 scenario *)

(** C1: on the field built from the 2 x 2 descriptor, [valueAt(0.5, 1.5)] is
    1, the upper-left value, and [interpolatedValueAt(1.0, 1.0)] is 4, the
    lower-right value, not the average 2.5: the decimal indexes are (1, 1),
    so all four surrounding indexes fall on the cell (1, 1). *)
Theorem scenario_2x2_corner :
  ScalarField.new Scenario.params22 = Return Scenario.F22
  /\ Field.valueAt Scenario.F22 (1 # 2) (3 # 2) = Return (val 1)
  /\ Field.contains Scenario.F22 1 1 = true
  /\ fst (Field._getDecimalIndexes Scenario.F22 1 1) == 1
  /\ snd (Field._getDecimalIndexes Scenario.F22 1 1) == 1
  /\ (let '(i, j) := Field._getDecimalIndexes Scenario.F22 1 1 in
      Field._getFourSurroundingIndexes Scenario.F22 i j) = (1, 1, 1, 1)%Z
  /\ Field._getFourSurroundingValues Scenario.F22 1 1 1 1 = Some (4, 4, 4, 4)
  /\ JS.Qeqv (Field.interpolatedValueAt Scenario.F22 1 1) (val 4)
  /\ ~ JS.Qeqv (Field.interpolatedValueAt Scenario.F22 1 1) (val (5 # 2)).
Proof.
  repeat split; try (vm_compute; reflexivity).
  vm_compute. discriminate.
Qed.

(** C2: at the centre of the upper-left cell of the 2 x 2 grid, where all
    four surrounding values are valid, [valueAt] is 1 and
    [interpolatedValueAt] is 2.5: the decimal indexes of a cell centre are
    (i + 0.5, j + 0.5), so the four neighbours are blended with equal
    weights. *)
Theorem scenario_2x2_cell_centre :
  fst (Field._lonLatAtIndexes Scenario.F22 0 0) == 1 # 2
  /\ snd (Field._lonLatAtIndexes Scenario.F22 0 0) == 3 # 2
  /\ Field.valueAt Scenario.F22 (1 # 2) (3 # 2) = Return (val 1)
  /\ fst (Field._getDecimalIndexes Scenario.F22 (1 # 2) (3 # 2)) == 1 # 2
  /\ snd (Field._getDecimalIndexes Scenario.F22 (1 # 2) (3 # 2)) == 1 # 2
  /\ (let '(i, j) := Field._getDecimalIndexes Scenario.F22 (1 # 2) (3 # 2) in
      Field._getFourSurroundingIndexes Scenario.F22 i j) = (0, 1, 0, 1)%Z
  /\ Field._getFourSurroundingValues Scenario.F22 0 1 0 1 = Some (1, 2, 3, 4)
  /\ JS.Qeqv (Field.interpolatedValueAt Scenario.F22 (1 # 2) (3 # 2))
             (val (5 # 2))
  /\ ~ JS.Qeqv (Field.interpolatedValueAt Scenario.F22 (1 # 2) (3 # 2))
               (val 1).
Proof.
  repeat split; try (vm_compute; reflexivity).
  vm_compute. discriminate.
Qed.

(** C3: the clamps bring every index into the grid, and [valueAt] clamps
    both of its indexes; [_getFourSurroundingIndexes] clamps [ci], [fj] and
    [cj] but returns [fi] as it is.  On the east edge of the 2 x 2 grid
    (longitude 2, inside the extent) [valueAt] answers with the last column
    and [interpolatedValueAt] with [null]; at the column index -1
    [interpolatedValueAtIndexes] answers [null] as well.  At the row index -1
    the rows are clamped to 0 and 1 and the weights are taken from the
    unclamped [j]: the result is -1, which is no value of the first row. *)
Theorem scenario_2x2_east_edge :
  (forall (T D : Type) (F : Field.t T D) (ii : Z),
      (0 < Field.nCols F)%Z -> (0 < Field.nRows F)%Z ->
      (0 <= Field._clampColumnIndex F ii <= Field.nCols F - 1)%Z
      /\ (0 <= Field._clampRowIndex F ii <= Field.nRows F - 1)%Z)
  /\ Field.contains Scenario.F22 2 (3 # 2) = true
  /\ Field.valueAt Scenario.F22 2 (3 # 2) = Return (val 2)
  /\ fst (Field._getDecimalIndexes Scenario.F22 2 (3 # 2)) == 2
  /\ snd (Field._getDecimalIndexes Scenario.F22 2 (3 # 2)) == 1 # 2
  /\ Field._getFourSurroundingIndexes Scenario.F22 2 (1 # 2)
     = (2, 1, 0, 1)%Z
  /\ Field._getFourSurroundingValues Scenario.F22 2 1 0 1 = None
  /\ Field.interpolatedValueAt Scenario.F22 2 (3 # 2) = null
  /\ Field._getFourSurroundingIndexes Scenario.F22 (-1) 0
     = (-1, 0, 0, 1)%Z
  /\ Field.interpolatedValueAtIndexes Scenario.F22 (-1) 0 = null
  /\ Field._getFourSurroundingIndexes Scenario.F22 0 (-1)
     = (0, 1, 0, 1)%Z
  /\ JS.Qeqv (Field.interpolatedValueAtIndexes Scenario.F22 0 (-1))
             (val (-1)).
Proof.
  split.
  - intros T D F ii Hc Hr.
    pose proof (_clampColumnIndex_range F ii Hc).
    pose proof (_clampRowIndex_range F ii Hr). lia.
  - repeat split; vm_compute; reflexivity.
Qed.

Lemma scenario_2x2_east_edge_witness :
  (0 <= Field._clampColumnIndex Scenario.F22 5 <= 2 - 1)%Z
  /\ (0 <= Field._clampRowIndex Scenario.F22 5 <= 2 - 1)%Z.
Proof.
  apply (proj1 scenario_2x2_east_edge Q ScalarField.Data Scenario.F22 5%Z);
    reflexivity.
Defined.

(** ** The grid of a VectorField *)

Lemma vector_fill_row_some (us vs : Array Q) (n : nat) :
  forall (p : Z) (row : Array Vector.t),
    VectorField.fill_row (Some us) (Some vs) n p row
    = Return (row ++ map (fun k => Built.zipped (get us (p + Z.of_nat k))
                                                (get vs (p + Z.of_nat k)))
                         (seq 0 n),
              (p + Z.of_nat n)%Z).
Proof.
  induction n as [|n IH]; intros p row.
  - cbn. rewrite app_nil_r, Z.add_0_r. reflexivity.
  - cbn [VectorField.fill_row read JS.bind]. rewrite IH.
    rewrite tabulate_shift, <- app_assoc. cbn [app].
    f_equal. f_equal.
    + f_equal. f_equal.
      * rewrite Z.add_0_r. reflexivity.
      * apply map_ext. intros k.
        replace (p + 1 + Z.of_nat k)%Z with (p + Z.of_nat (S k))%Z by lia.
        reflexivity.
    + lia.
Qed.

Lemma vector_fill_grid_some (us vs : Array Q) (nCols : Z) (n : nat) :
  forall (p : Z) (grid : list (Array Vector.t)),
    VectorField.fill_grid (Some us) (Some vs) nCols n p grid
    = Return
        (grid ++
         map (fun r =>
                map (fun c =>
                       let q := (p + Z.of_nat r * Z.of_nat (Z.to_nat nCols)
                                 + Z.of_nat c)%Z in
                       Built.zipped (get us q) (get vs q))
                    (seq 0 (Z.to_nat nCols)))
             (seq 0 n)).
Proof.
  induction n as [|n IH]; intros p grid.
  - cbn. rewrite app_nil_r. reflexivity.
  - cbn [VectorField.fill_grid]. rewrite vector_fill_row_some.
    cbn [JS.bind fst snd app]. rewrite IH.
    rewrite tabulate_shift, <- app_assoc. cbn [app].
    do 3 f_equal.
    + apply map_ext. intros c. cbv zeta.
      replace (p + Z.of_nat 0 * Z.of_nat (Z.to_nat nCols) + Z.of_nat c)%Z
        with (p + Z.of_nat c)%Z by lia.
      reflexivity.
    + apply map_ext. intros r. apply map_ext. intros c. cbv zeta.
      replace (p + Z.of_nat (Z.to_nat nCols) + Z.of_nat r
                   * Z.of_nat (Z.to_nat nCols) + Z.of_nat c)%Z
        with (p + Z.of_nat (S r) * Z.of_nat (Z.to_nat nCols) + Z.of_nat c)%Z
        by lia.
      reflexivity.
Qed.

(** ** Reading a tabulated grid *)

Lemma row_tabulate {T D} (F : Field.t T D) (f : nat -> Array T) (j : Z) :
  Field.grid F = map f (seq 0 (Z.to_nat (Field.nRows F))) ->
  (0 <= j < Field.nRows F)%Z ->
  Field.row F j = Some (f (Z.to_nat j)).
Proof.
  intros Hg Hj. unfold Field.row. destruct (Z.ltb_spec j 0); [lia|].
  rewrite Hg. apply nth_error_tabulate. lia.
Qed.

Lemma scalar_grid_cell (p : Field.Params ScalarField.Data) (zs : Array Q)
  (r : value Q * value Q) (i j : Z) :
  (0 <= i < Field.p_nCols p)%Z -> (0 <= j < Field.p_nRows p)%Z ->
  Field._valueAtIndexes
    (Field.set_range r
       (Field.set_grid
          (Built.scalar_grid zs (Field.p_nRows p) (Field.p_nCols p))
          (Field.init p))) i j
  = Return (Built.stored (get zs (j * Field.p_nCols p + i))).
Proof.
  intros Hi Hj. unfold Field._valueAtIndexes.
  erewrite row_tabulate; [|reflexivity|exact Hj].
  cbv beta. rewrite get_tabulate by lia. do 3 f_equal. lia.
Qed.

Lemma vector_grid_cell (p : Field.Params VectorField.Data) (us vs : Array Q)
  (r : value Q * value Q) (i j : Z) :
  (0 <= i < Field.p_nCols p)%Z -> (0 <= j < Field.p_nRows p)%Z ->
  Field._valueAtIndexes
    (Field.set_range r
       (Field.set_grid
          (Built.vector_grid us vs (Field.p_nRows p) (Field.p_nCols p))
          (Field.init p))) i j
  = Return (Built.zipped (get us (j * Field.p_nCols p + i))
                         (get vs (j * Field.p_nCols p + i))).
Proof.
  intros Hi Hj. unfold Field._valueAtIndexes.
  erewrite row_tabulate; [|reflexivity|exact Hj].
  cbv beta. rewrite get_tabulate by lia. cbv zeta.
  replace (0 + Z.of_nat (Z.to_nat j) * Z.of_nat (Z.to_nat (Field.p_nCols p))
           + Z.of_nat (Z.to_nat i))%Z
    with (j * Field.p_nCols p + i)%Z by lia.
  reflexivity.
Qed.

Lemma get_beyond {T} (a : Array T) (k : Z) :
  (Z.of_nat (length a) <= k)%Z -> get a k = undefined.
Proof.
  intros Hk. unfold get. destruct (Z.ltb_spec k 0); [reflexivity|].
  apply nth_overflow. lia.
Qed.

(** ** getCells and the range of a VectorField *)

Lemma In_strided (stride : positive) (n i : Z) :
  In i (Field.strided stride n) -> (0 <= i < n)%Z.
Proof.
  unfold Field.strided. intros H. apply in_map_iff in H.
  destruct H as [k [<- Hk]]. apply in_seq in Hk.
  destruct Hk as [_ Hk]. cbn [Nat.add] in Hk.
  assert (Hs : (0 < Zpos stride)%Z) by lia.
  destruct (Z.le_gt_cases ((n + Zpos stride - 1) / Zpos stride) 0)
    as [Hle|Hgt].
  - lia.
  - assert (Hk' : (Z.of_nat k + 1 <= (n + Zpos stride - 1) / Zpos stride)%Z)
      by lia.
    pose proof (Z.mul_div_le (n + Zpos stride - 1) (Zpos stride) Hs) as Hd.
    nia.
Qed.

Lemma cells_of_row_returns {T D} (F : Field.t T D) (j : Z) (cols : list Z) :
  (0 <= j < Field.nRows F)%Z ->
  Built.shaped F ->
  Forall (fun i => (0 <= i < Field.nCols F)%Z) cols ->
  exists cells,
    Field.cells_of_row F j cols = Return cells
    /\ Forall (fun c => Built.slot_ok (Cell.value c) = true) cells.
Proof.
  intros Hj Hs Hcols. induction Hcols as [|i cols Hi _ IH].
  - exists []. split; [reflexivity|constructor].
  - destruct IH as [cells [Hc Hall]].
    destruct (_valueAtIndexes_shaped F i j Hs Hi Hj) as [v [Hv [_ Hok]]].
    cbn [Field.cells_of_row]. unfold Field._lonLatAtIndexes.
    rewrite Hv. cbn [JS.bind]. rewrite Hc. cbn [JS.bind].
    eexists. split; [reflexivity|]. constructor; [exact Hok|exact Hall].
Qed.

Lemma cells_of_rows_returns {T D} (F : Field.t T D) (rows cols : list Z) :
  Built.shaped F ->
  Forall (fun j => (0 <= j < Field.nRows F)%Z) rows ->
  Forall (fun i => (0 <= i < Field.nCols F)%Z) cols ->
  exists cells,
    Field.cells_of_rows F rows cols = Return cells
    /\ Forall (fun c => Built.slot_ok (Cell.value c) = true) cells.
Proof.
  intros Hs Hrows Hcols. induction Hrows as [|j rows Hj _ IH].
  - exists []. split; [reflexivity|constructor].
  - destruct IH as [rest [Hr Hall]].
    destruct (cells_of_row_returns F j cols Hj Hs Hcols) as [cells [Hc Hoks]].
    cbn [Field.cells_of_rows]. rewrite Hc. cbn [JS.bind].
    rewrite Hr. cbn [JS.bind].
    eexists. split; [reflexivity|]. apply Forall_app. split; assumption.
Qed.

Lemma getCells_returns {T D} (F : Field.t T D) (stride : positive) :
  Built.shaped F ->
  exists cells,
    Field.getCells F stride = Return cells
    /\ Forall (fun c => Built.slot_ok (Cell.value c) = true) cells.
Proof.
  intros Hs. unfold Field.getCells.
  apply cells_of_rows_returns; [exact Hs| |];
    apply Forall_forall; intros k Hk; exact (In_strided _ _ _ Hk).
Qed.

Lemma magnitudes_returns {B : Builtins} (vectors : Array Vector.t) :
  Forall (fun z => Field._isValid z = true) vectors ->
  exists ms, VectorField.magnitudes vectors = Return ms.
Proof.
  intros H. induction H as [|z vectors Hz _ IH].
  - exists []. reflexivity.
  - destruct IH as [ms Hms]. destruct z; try discriminate.
    cbn [VectorField.magnitudes]. rewrite Hms. cbn [JS.bind].
    eexists. reflexivity.
Qed.

Lemma VectorField_calculateRange_returns {B : Builtins} (F : VectorField.t) :
  Built.shaped F ->
  exists r, VectorField._calculateRange F = Return r.
Proof.
  intros Hs. unfold VectorField._calculateRange.
  destruct (getCells_returns F 1 Hs) as [cells [Hc Hall]].
  rewrite Hc. cbn [JS.bind].
  assert (Hv : Forall (fun z => Field._isValid z = true)
                 (filter not_null (map Cell.value cells))).
  { apply Forall_forall. intros z Hz. apply filter_In in Hz.
    destruct Hz as [Hin Hnn]. apply in_map_iff in Hin.
    destruct Hin as [c [<- Hcin]].
    rewrite Forall_forall in Hall. specialize (Hall c Hcin).
    destruct (Cell.value c); cbn in *; congruence. }
  assert (Hv' : Forall (fun z => Field._isValid z = true)
                  match Field._inFilter F with
                  | Some f => filter f (filter not_null (map Cell.value cells))
                  | None => filter not_null (map Cell.value cells)
                  end).
  { destruct (Field._inFilter F) as [f|]; [|exact Hv].
    apply Forall_forall. intros z Hz. apply filter_In in Hz.
    rewrite Forall_forall in Hv. apply Hv. apply Hz. }
  destruct (magnitudes_returns _ Hv') as [ms Hms].
  rewrite Hms. cbn [JS.bind]. eexists. reflexivity.
Qed.

Lemma vector_grid_shaped (p : Field.Params VectorField.Data)
  (us vs : Array Q) :
  Built.shaped
    (Field.set_grid
       (Built.vector_grid us vs (Field.p_nRows p) (Field.p_nCols p))
       (Field.init p) : VectorField.t).
Proof.
  intros j Hj. cbn [Field.set_grid Field.init Field.nRows] in Hj.
  eexists. split.
  - apply row_tabulate; [reflexivity|exact Hj].
  - intros i Hi. cbn [Field.set_grid Field.init Field.nCols] in Hi.
    cbv beta. rewrite get_tabulate by lia. apply zipped_slot_ok.
Qed.

Lemma VectorField_new_some {B : Builtins} (p : Field.Params VectorField.Data)
  (us vs : Array Q) :
  Field.p_data p = (Some us, Some vs) ->
  exists r,
    VectorField.new p
    = Return
        (Field.set_range r
           (Field.set_grid
              (Built.vector_grid us vs (Field.p_nRows p) (Field.p_nCols p))
              (Field.init p))).
Proof.
  intros Hd. unfold VectorField.new.
  assert (Hb : VectorField._buildGrid (Field.init p)
               = Return (Built.vector_grid us vs (Field.p_nRows p)
                                           (Field.p_nCols p))).
  { unfold VectorField._buildGrid, VectorField._arraysTo2d.
    cbn [Field.init Field.data Field.nRows Field.nCols]. rewrite Hd.
    cbn [fst snd]. rewrite vector_fill_grid_some. reflexivity. }
  cbv zeta. rewrite Hb. cbn [JS.bind].
  destruct (VectorField_calculateRange_returns _ (vector_grid_shaped p us vs))
    as [r Hr].
  rewrite Hr. cbn [JS.bind]. exists r. reflexivity.
Qed.

Lemma VectorField_new_grid_ok {B : Builtins}
  (p : Field.Params VectorField.Data) (F : VectorField.t) :
  VectorField.new p = Return F ->
  (0 < Field.p_nRows p)%Z -> (0 < Field.p_nCols p)%Z ->
  Built.grid_ok F = true.
Proof.
  intros Hnew Hr Hc.
  destruct (Field.p_data p) as [[us|] [vs|]] eqn:Hd.
  - destruct (VectorField_new_some p us vs Hd) as [r Hsome].
    rewrite Hsome in Hnew. injection Hnew as <-. unfold Built.grid_ok.
    cbn [Field.set_range Field.set_grid Field.init Field.nRows Field.nCols
         Field.grid].
    unfold Built.vector_grid. rewrite length_map, length_seq.
    rewrite Nat.eqb_refl.
    destruct (Z.ltb_spec 0 (Field.p_nRows p)); [|lia].
    destruct (Z.ltb_spec 0 (Field.p_nCols p)); [|lia].
    cbn [andb]. apply forallb_tabulate. intros r' _.
    rewrite length_map, length_seq, Nat.eqb_refl. cbn [andb].
    apply forallb_tabulate. intros c _. apply zipped_slot_ok.
  - exfalso. unfold VectorField.new, VectorField._buildGrid,
      VectorField._arraysTo2d in Hnew.
    cbn [Field.init Field.data Field.nRows Field.nCols] in Hnew.
    rewrite Hd in Hnew.
    destruct (Z.to_nat (Field.p_nRows p)) as [|n] eqn:En; [lia|].
    destruct (Z.to_nat (Field.p_nCols p)) as [|c] eqn:Ec; [lia|].
    cbn in Hnew. rewrite Ec in Hnew. cbn in Hnew. discriminate.
  - exfalso. unfold VectorField.new, VectorField._buildGrid,
      VectorField._arraysTo2d in Hnew.
    cbn [Field.init Field.data Field.nRows Field.nCols] in Hnew.
    rewrite Hd in Hnew.
    destruct (Z.to_nat (Field.p_nRows p)) as [|n] eqn:En; [lia|].
    destruct (Z.to_nat (Field.p_nCols p)) as [|c] eqn:Ec; [lia|].
    cbn in Hnew. rewrite Ec in Hnew. cbn in Hnew. discriminate.
  - exfalso. unfold VectorField.new, VectorField._buildGrid,
      VectorField._arraysTo2d in Hnew.
    cbn [Field.init Field.data Field.nRows Field.nCols] in Hnew.
    rewrite Hd in Hnew.
    destruct (Z.to_nat (Field.p_nRows p)) as [|n] eqn:En; [lia|].
    destruct (Z.to_nat (Field.p_nCols p)) as [|c] eqn:Ec; [lia|].
    cbn in Hnew. rewrite Ec in Hnew. cbn in Hnew. discriminate.
Qed.

Lemma VectorField_new_flags_ok {B : Builtins}
  (p : Field.Params VectorField.Data) (F : VectorField.t) :
  VectorField.new p = Return F -> Built.flags_ok F = true.
Proof.
  intros Hnew. unfold VectorField.new in Hnew. cbv zeta in Hnew.
  destruct (VectorField._buildGrid (Field.init p)) as [g|e]; [|discriminate].
  cbn [JS.bind] in Hnew.
  destruct (VectorField._calculateRange _) as [r|e]; [|discriminate].
  injection Hnew as <-. unfold Built.flags_ok. cbn.
  rewrite !Bool.eqb_reflx. reflexivity.
Qed.

(** [setFilter] and [setSpatialMask] keep a field as it was built. *)
Lemma setFilter_keeps_built {T D} {impl : Field.Impl T D}
  (F F' : Field.t T D) (f : option (value T -> bool)) :
  Field.setFilter f F = Return F' ->
  Built.grid_ok F' = Built.grid_ok F /\ Built.flags_ok F' = Built.flags_ok F.
Proof.
  intros H. destruct (setFilter_inv F F' f H) as [r ->].
  split; reflexivity.
Qed.

Lemma setSpatialMask_keeps_built {T D} (F : Field.t T D)
  (m : option (Q -> Q -> bool)) :
  Built.grid_ok (Field.setSpatialMask m F) = Built.grid_ok F
  /\ Built.flags_ok (Field.setSpatialMask m F) = Built.flags_ok F.
Proof. split; reflexivity. Qed.

(** ** Construction from a descriptor *)

(** C9, as stated, fails: the descriptor declares 2 x 2 cells and brings
    three values, and the constructor returns a field, whose last cell is
    [null]; it does not raise. *)
Lemma construction_with_short_array_returns :
  (Field.p_nRows Scenario.paramsShort * Field.p_nCols Scenario.paramsShort)%Z
  <> Z.of_nat (length Scenario.zsShort)
  /\ ScalarField.new Scenario.paramsShort = Return Scenario.FShort
  /\ ~ (exists e, ScalarField.new Scenario.paramsShort = Throw e).
Proof.
  split; [|split].
  - vm_compute. discriminate.
  - vm_compute. reflexivity.
  - intros [e He]. vm_compute in He. discriminate.
Qed.

(** C9, amended: a constructor whose flat array (both arrays, for a
    VectorField) is present returns a field, whatever the length of the
    array.  The grid has [nRows] rows, the cell [(j, i)] holds what entry
    [j * nCols + i] of the array stores, and [null] where the array has no
    such entry.  Entries beyond [nRows * nCols] do not reach the grid, but
    the range of a ScalarField is the minimum and the maximum of the whole
    array, those entries included: with five values on 2 x 2 cells the grid
    holds the first four and the range ends at the fifth. *)
Theorem construction_ignores_array_length :
  (forall (p : Field.Params ScalarField.Data) (zs : Array Q),
      Field.p_data p = Some zs ->
      exists F : ScalarField.t,
        ScalarField.new p = Return F
        /\ length (Field.grid F) = Z.to_nat (Field.p_nRows p)
        /\ Field.range F = (d3.min zs, d3.max zs)
        /\ forall i j : Z,
             (0 <= i < Field.p_nCols p)%Z -> (0 <= j < Field.p_nRows p)%Z ->
             Field._valueAtIndexes F i j
             = Return (Built.stored (get zs (j * Field.p_nCols p + i)))
             /\ ((Z.of_nat (length zs) <= j * Field.p_nCols p + i)%Z ->
                 Field._valueAtIndexes F i j = Return null))
  /\ (forall (B : Builtins) (p : Field.Params VectorField.Data)
             (us vs : Array Q),
      Field.p_data p = (Some us, Some vs) ->
      exists F : VectorField.t,
        VectorField.new p = Return F
        /\ length (Field.grid F) = Z.to_nat (Field.p_nRows p)
        /\ forall i j : Z,
             (0 <= i < Field.p_nCols p)%Z -> (0 <= j < Field.p_nRows p)%Z ->
             Field._valueAtIndexes F i j
             = Return (Built.zipped (get us (j * Field.p_nCols p + i))
                                    (get vs (j * Field.p_nCols p + i)))
             /\ ((Z.of_nat (length us) <= j * Field.p_nCols p + i)%Z
                 \/ (Z.of_nat (length vs) <= j * Field.p_nCols p + i)%Z ->
                 Field._valueAtIndexes F i j = Return null))
  /\ (ScalarField.new Oversized.paramsLong = Return Oversized.FLong
      /\ (Field.p_nRows Oversized.paramsLong
          * Field.p_nCols Oversized.paramsLong
          < Z.of_nat (length Oversized.zsLong))%Z
      /\ Field.grid Oversized.FLong = [[val 1; val 2]; [val 3; val 4]]
      /\ Field.range Oversized.FLong = (val 1, val 5)).
Proof.
  split; [|split].
  - intros p zs Hzs. eexists. split; [exact (ScalarField_new_some p zs Hzs)|].
    split.
    + cbn [Field.set_range Field.set_grid Field.grid].
      unfold Built.scalar_grid. rewrite length_map, length_seq. reflexivity.
    + split; [reflexivity|].
      intros i j Hi Hj. rewrite scalar_grid_cell by assumption.
      split; [reflexivity|]. intros Hk. rewrite get_beyond by exact Hk.
      reflexivity.
  - intros B p us vs Hd. destruct (VectorField_new_some p us vs Hd) as [r Hr].
    eexists. split; [exact Hr|]. split.
    + cbn [Field.set_range Field.set_grid Field.grid].
      unfold Built.vector_grid. rewrite length_map, length_seq. reflexivity.
    + intros i j Hi Hj. rewrite vector_grid_cell by assumption.
      split; [reflexivity|]. intros [Hk|Hk]; rewrite (get_beyond _ _ Hk).
      * reflexivity.
      * destruct (get us _); reflexivity.
  - repeat split; vm_compute; reflexivity.
Qed.

Lemma construction_ignores_array_length_witness :
  exists F : ScalarField.t,
    ScalarField.new Scenario.paramsShort = Return F
    /\ length (Field.grid F) = Z.to_nat 2
    /\ Field.range F = (d3.min Scenario.zsShort, d3.max Scenario.zsShort)
    /\ forall i j : Z,
         (0 <= i < 2)%Z -> (0 <= j < 2)%Z ->
         Field._valueAtIndexes F i j
         = Return (Built.stored (get Scenario.zsShort (j * 2 + i)))
         /\ ((Z.of_nat (length Scenario.zsShort) <= j * 2 + i)%Z ->
             Field._valueAtIndexes F i j = Return null).
Proof.
  apply (proj1 construction_ignores_array_length Scenario.paramsShort
           Scenario.zsShort).
  reflexivity.
Defined.

(** ** One tick of the animation *)

Section Tick.

Import VectorFieldAnim.

Context {B : Builtins}.
Variable field : VectorField.t.
Variable options : Options.
Variable inView : Q -> Q -> bool.
Hypothesis field_ok : Built.grid_ok field = true.

Lemma entering_old (par : Particle) (k : nat) :
  (age par > maxAge options)%Z ->
  entering field options par k
  = (set_position
       (Field.randomPosition field (Math_random k) (Math_random (S k)))
       (set_age 0 par),
     S (S k)).
Proof.
  intros H. unfold entering.
  destruct (Z.gtb_spec (age par) (maxAge options)); [reflexivity|lia].
Qed.

Lemma entering_young (par : Particle) (k : nat) :
  (age par <= maxAge options)%Z ->
  entering field options par k = (par, k).
Proof.
  intros H. unfold entering.
  destruct (Z.gtb_spec (age par) (maxAge options)); [lia|reflexivity].
Qed.

(** The two ways a particle leaves the body of the loop. *)
Lemma moveParticle_cases (par : Particle) (k : nat) :
  let q := fst (entering field options par k) in
  let k' := snd (entering field options par k) in
  (exists vec,
      advances field options q vec
      /\ moveParticle field options par k
         = Return (set_age (age q + 1)
                     (set_target (fst (candidate options q vec))
                                 (snd (candidate options q vec))
                                 (Vector.magnitude vec) q),
                   k'))
  \/ (stranded field options q
      /\ moveParticle field options par k
         = Return (set_age (maxAge options + 1) q, k')).
Proof.
  intros q k'.
  assert (Hm : moveParticle field options par k
               = bindR (lift (Field.valueAt field (x q) (y q)))
                   (fun vector =>
                    bindR (match vector with
                           | null => ret (set_age (maxAge options) q)
                           | undefined => lift (Throw TypeError)
                           | val vec =>
                               bindR (lift (Field.hasValueAt field
                                              (fst (candidate options q vec))
                                              (snd (candidate options q vec))))
                                 (fun has =>
                                  if has : bool
                                  then ret (set_target
                                              (fst (candidate options q vec))
                                              (snd (candidate options q vec))
                                              (Vector.magnitude vec) q)
                                  else ret (set_age (maxAge options) q))
                           end)
                      (fun par => ret (set_age (age par + 1) par))) k').
  { subst q k'. unfold moveParticle, entering.
    destruct (age par >? maxAge options)%Z; reflexivity. }
  rewrite Hm. clear Hm. unfold bindR, lift, ret.
  destruct (valueAt_returns field (x q) (y q) field_ok) as [v [Hv Hok]].
  rewrite Hv. cbn [JS.bind fst snd].
  destruct v as [| |vec]; [discriminate Hok| |].
  - right. split; [left; exact Hv|]. reflexivity.
  - destruct (hasValueAt_returns field (fst (candidate options q vec))
                (snd (candidate options q vec)) field_ok) as [b Hb].
    rewrite Hb. cbn [JS.bind fst snd]. destruct b.
    + left. exists vec. split; [split; assumption|]. reflexivity.
    + right. split; [right; exists vec; split; assumption|]. reflexivity.
Qed.

Lemma moveParticle_returns (par : Particle) (k : nat) :
  exists par',
    moveParticle field options par k
    = Return (par', snd (entering field options par k)).
Proof.
  destruct (moveParticle_cases par k) as [[vec [_ H]]|[_ H]];
    eexists; exact H.
Qed.

(** The loop over the pool returns, and every particle of the result comes
    from the particle at the same place by one run of the body. *)
Lemma _moveParticles_returns (paths : list Particle) :
  forall k : nat,
  exists paths' k',
    _moveParticles field options paths k = Return (paths', k')
    /\ Forall2 (fun par par' =>
                  exists k1,
                    moveParticle field options par k1
                    = Return (par', snd (entering field options par k1)))
               paths paths'.
Proof.
  induction paths as [|par rest IH]; intros k.
  - exists [], k. split; [reflexivity|constructor].
  - destruct (moveParticle_returns par k) as [par' Hp].
    destruct (IH (snd (entering field options par k)))
      as [rest' [k' [Hr Hall]]].
    exists (par' :: rest'), k'. split.
    + unfold _moveParticles in *. cbn [forEach]. unfold bindR at 1.
      rewrite Hp. cbn [JS.bind fst snd]. unfold bindR at 1.
      rewrite Hr. reflexivity.
    + constructor; [exists k; exact Hp|exact Hall].
Qed.

(** A particle that is drawn after a tick has a target. *)
Lemma draw_after_move (par par' : Particle) (k k' : nat) :
  moveParticle field options par k = Return (par', k') ->
  exists par'', _drawParticle options inView par' = Some par''.
Proof.
  intros H.
  destruct (moveParticle_cases par k) as [[vec [_ H']]|[_ H']];
    rewrite H' in H; injection H as <- _; unfold _drawParticle.
  - cbn [xt yt set_age set_target].
    destruct (_ && _); eexists; reflexivity.
  - cbn [age set_age].
    destruct (Z.leb_spec (maxAge options + 1) (maxAge options)); [lia|].
    rewrite andb_false_r. eexists. reflexivity.
Qed.

Lemma advances_not_stranded (q : Particle) (vec : Vector.t) :
  advances field options q vec -> stranded field options q -> False.
Proof.
  intros [Hv Hh] [Hn|[vec' [Hv' Hh']]].
  - congruence.
  - rewrite Hv in Hv'. injection Hv' as <-. congruence.
Qed.

(** A particle older than [maxAge] is respawned by the tick. *)
Lemma old_particle_respawns (par : Particle) (k : nat) :
  (age par > maxAge options)%Z ->
  _drawParticle options inView par = Some par
  /\ exists par',
       moveParticle field options par k = Return (par', S (S k))
       /\ (x par', y par')
          = Field.randomPosition field (Math_random k) (Math_random (S k))
       /\ (age par' = 1 \/ age par' = maxAge options + 1)%Z.
Proof.
  intros Hold. split.
  - unfold _drawParticle.
    destruct (Z.leb_spec (age par) (maxAge options)); [lia|].
    rewrite andb_false_r. reflexivity.
  - pose proof (moveParticle_cases par k) as Hc.
    rewrite (entering_old par k Hold) in Hc. cbn [fst snd] in Hc.
    destruct Hc as [[vec [_ H]]|[_ H]]; eexists; (split; [exact H|]);
      cbn [x y age set_age set_target set_position]; split;
      try (symmetry; apply surjective_pairing); lia.
Qed.

(** A step of the timer returns, and drawing never meets a particle that
    has no target. *)
Lemma timerStep_returns (paths : list Particle) (k : nat) :
  exists paths' k',
    timerStep field options inView paths k = Return (Some paths', k').
Proof.
  destruct (_moveParticles_returns paths k) as [moved [k' [Hm Hall]]].
  unfold timerStep. rewrite Hm. cbn [JS.bind fst snd].
  assert (Hd : exists drawn, _drawParticles options inView moved = Some drawn).
  { clear Hm. induction Hall as [|par par' rest rest' [k1 Hp] _ IH].
    - exists []. reflexivity.
    - destruct IH as [drawn Hdrawn].
      destruct (draw_after_move par par' k1 _ Hp) as [par'' Hpar].
      cbn [_drawParticles]. rewrite Hpar, Hdrawn. eexists. reflexivity. }
  destruct Hd as [drawn Hd]. rewrite Hd. exists drawn, k'. reflexivity.
Qed.

End Tick.

(** C6, as stated, fails: the particle [pOld] is older than [maxAge]; the
    tick respawns it and, in the same run of the loop body, advances it from
    the new position: it leaves the tick with a target, a magnitude and the
    age 1.  And a particle whose advance fails at the age [maxAge] has its
    age incremented by 1 as well. *)
Lemma respawned_particle_is_advanced :
  (VectorFieldAnim.age Scenario.pOld
   > VectorFieldAnim.maxAge Scenario.animOptions)%Z
  /\ @VectorFieldAnim.moveParticle Scenario.builtins Scenario.FWind
       Scenario.animOptions Scenario.pOld 0%nat
     = Return (Scenario.pOldMoved, 2%nat)
  /\ ~ (VectorFieldAnim.xt Scenario.pOldMoved
        = VectorFieldAnim.xt Scenario.pOld
        /\ VectorFieldAnim.yt Scenario.pOldMoved
           = VectorFieldAnim.yt Scenario.pOld
        /\ VectorFieldAnim.m Scenario.pOldMoved
           = VectorFieldAnim.m Scenario.pOld)
  /\ VectorFieldAnim.age Scenario.pOldMoved = 1%Z
  /\ @VectorFieldAnim.moveParticle Scenario.builtins Scenario.FWind
       Scenario.animOptions Scenario.pNoDataAtMaxAge 0%nat
     = Return (VectorFieldAnim.set_age
                 (VectorFieldAnim.age Scenario.pNoDataAtMaxAge + 1)
                 Scenario.pNoDataAtMaxAge, 0%nat).
Proof.
  split; [reflexivity|]. split; [vm_compute; reflexivity|].
  split; [intros [H _]; discriminate H|].
  split; [reflexivity|vm_compute; reflexivity].
Qed.

(** C6, amended: on a field as the constructors build it, every run of the
    loop body returns.  A particle older than [maxAge] is first respawned
    (age 0, a new random position) and is then sampled and advanced like any
    other particle, in the same run.  When the advance succeeds the particle
    commits [xt], [yt] and the magnitude of the sampled vector and its age
    (the reset one, after a respawn) grows by 1; when it fails the particle
    keeps [xt], [yt] and [m] and leaves with the age [maxAge + 1].  The tick
    applies this to every particle of the pool. *)
Theorem moveParticle_outcome {B : Builtins} (field : VectorField.t)
  (options : VectorFieldAnim.Options) :
  Built.grid_ok field = true ->
  (forall (par : VectorFieldAnim.Particle) (k : nat),
      let q := fst (VectorFieldAnim.entering field options par k) in
      let k' := snd (VectorFieldAnim.entering field options par k) in
      ((VectorFieldAnim.age par > VectorFieldAnim.maxAge options)%Z ->
         VectorFieldAnim.age q = 0%Z
         /\ (VectorFieldAnim.x q, VectorFieldAnim.y q)
            = Field.randomPosition field (Math_random k) (Math_random (S k))
         /\ k' = S (S k))
      /\ ((VectorFieldAnim.age par <= VectorFieldAnim.maxAge options)%Z ->
            q = par /\ k' = k)
      /\ exists par',
           VectorFieldAnim.moveParticle field options par k = Return (par', k')
           /\ VectorFieldAnim.x par' = VectorFieldAnim.x q
           /\ VectorFieldAnim.y par' = VectorFieldAnim.y q
           /\ ((exists vec,
                   VectorFieldAnim.advances field options q vec
                   /\ VectorFieldAnim.xt par'
                      = val (fst (VectorFieldAnim.candidate options q vec))
                   /\ VectorFieldAnim.yt par'
                      = val (snd (VectorFieldAnim.candidate options q vec))
                   /\ VectorFieldAnim.m par' = val (Vector.magnitude vec)
                   /\ VectorFieldAnim.age par'
                      = (VectorFieldAnim.age q + 1)%Z)
               \/ (VectorFieldAnim.stranded field options q
                   /\ VectorFieldAnim.xt par' = VectorFieldAnim.xt par
                   /\ VectorFieldAnim.yt par' = VectorFieldAnim.yt par
                   /\ VectorFieldAnim.m par' = VectorFieldAnim.m par
                   /\ VectorFieldAnim.age par'
                      = (VectorFieldAnim.maxAge options + 1)%Z)))
  /\ (forall (paths : list VectorFieldAnim.Particle) (k : nat),
      exists paths' k',
        VectorFieldAnim._moveParticles field options paths k
        = Return (paths', k')
        /\ Forall2
             (fun par par' =>
                exists k1,
                  VectorFieldAnim.moveParticle field options par k1
                  = Return (par',
                            snd (VectorFieldAnim.entering field options
                                   par k1)))
             paths paths').
Proof.
  intros Hok. split.
  - intros par k q k'. split; [|split].
    + intros Hold. subst q k'.
      rewrite (entering_old field options par k Hold).
      cbn [fst snd VectorFieldAnim.age VectorFieldAnim.x VectorFieldAnim.y
           VectorFieldAnim.set_position VectorFieldAnim.set_age].
      split; [reflexivity|].
      split; [symmetry; apply surjective_pairing|reflexivity].
    + intros Hyoung. subst q k'.
      rewrite (entering_young field options par k Hyoung). split; reflexivity.
    + destruct (moveParticle_cases field options Hok par k)
        as [[vec [Hadv H]]|[Hstr H]];
        eexists; (split; [exact H|]).
      * split; [reflexivity|]. split; [reflexivity|].
        left. exists vec. split; [exact Hadv|]. repeat split.
      * split; [reflexivity|]. split; [reflexivity|].
        right. split; [exact Hstr|].
        subst q. unfold VectorFieldAnim.entering.
        destruct (_ >? _)%Z; repeat split.
  - intros paths k. exact (_moveParticles_returns field options Hok paths k).
Qed.

Lemma moveParticle_outcome_witness :
  exists paths' k',
    @VectorFieldAnim._moveParticles Scenario.builtins Scenario.FWind
      Scenario.animOptions [Scenario.pOld; Scenario.pNoData] 0%nat
    = Return (paths', k')
    /\ Forall2
         (fun par par' =>
            exists k1,
              @VectorFieldAnim.moveParticle Scenario.builtins Scenario.FWind
                Scenario.animOptions par k1
              = Return (par',
                        snd (@VectorFieldAnim.entering Scenario.builtins
                               Scenario.FWind Scenario.animOptions par k1)))
         [Scenario.pOld; Scenario.pNoData] paths'.
Proof.
  apply (proj2 (@moveParticle_outcome Scenario.builtins Scenario.FWind
                  Scenario.animOptions eq_refl)).
Defined.

(** The tick respawns a particle older than [maxAge] and samples it at the
    new position in the same pass. *)
Lemma respawn_outcome {B : Builtins} (field : VectorField.t)
  (options : VectorFieldAnim.Options) (par : VectorFieldAnim.Particle)
  (k : nat) :
  Built.grid_ok field = true ->
  (VectorFieldAnim.age par > VectorFieldAnim.maxAge options)%Z ->
  Respawn.outcome field options par k.
Proof.
  intros Hok Hold. unfold Respawn.outcome.
  pose proof (moveParticle_cases field options Hok par k) as Hc.
  rewrite (entering_old field options par k Hold) in Hc.
  cbn [fst snd] in Hc.
  rewrite (entering_old field options par k Hold).
  destruct Hc as [[vec [Hadv H]]|[Hstr H]].
  - eexists. eexists. split; [reflexivity|].
    split; [reflexivity|]. split; [reflexivity|]. split; [reflexivity|].
    split; [exact H|]. split; [reflexivity|]. split; [reflexivity|].
    left. exists vec. split; [exact Hadv|reflexivity].
  - eexists. eexists. split; [reflexivity|].
    split; [reflexivity|]. split; [reflexivity|]. split; [reflexivity|].
    split; [exact H|]. split; [reflexivity|]. split; [reflexivity|].
    right. split; [exact Hstr|reflexivity].
Qed.

(** C7, as stated, fails in its consequence: on a wind field without data
    the particle [Scenario.pNoData] leaves the first step of the timer with
    the age [maxAge + 1]; the second step respawns it on a cell that has no
    data either, so it leaves with the age [maxAge + 1] again, and so does the
    third step, at the same invalid position. *)
Lemma respawned_particle_can_strand_again :
  @VectorField.new Scenario.builtins Respawn.paramsCalm
  = Return Respawn.FCalm
  /\ @VectorFieldAnim.timerStep Scenario.builtins Respawn.FCalm
       Scenario.animOptions Scenario.everywhere [Scenario.pNoData] 0%nat
     = Return (Some [Respawn.pStuck1], 0%nat)
  /\ @VectorFieldAnim.timerStep Scenario.builtins Respawn.FCalm
       Scenario.animOptions Scenario.everywhere [Respawn.pStuck1] 0%nat
     = Return (Some [Respawn.pStuck2], 2%nat)
  /\ @VectorFieldAnim.timerStep Scenario.builtins Respawn.FCalm
       Scenario.animOptions Scenario.everywhere [Respawn.pStuck2] 2%nat
     = Return (Some [Respawn.pStuck2], 4%nat)
  /\ (VectorFieldAnim.age Respawn.pStuck1
      > VectorFieldAnim.maxAge Scenario.animOptions)%Z
  /\ (VectorFieldAnim.age Respawn.pStuck2
      > VectorFieldAnim.maxAge Scenario.animOptions)%Z
  /\ Field.valueAt Respawn.FCalm (VectorFieldAnim.x Respawn.pStuck2)
                   (VectorFieldAnim.y Respawn.pStuck2) = Return null.
Proof. repeat split; vm_compute; reflexivity. Qed.

(** C7, amended: on a field as the constructors build it, a particle for
    which the field has no value at the position where it is sampled, or none
    at the candidate next position, leaves the tick with the age
    [maxAge + 1]; drawing leaves it as it is, and the following tick respawns
    it: age 0 and the centre of the cell selected by two new draws, where it
    is sampled in the same pass.  The selected cell may have no data: the
    particle leaves that tick with the age 1 when the advance from the new
    position succeeds and with the age [maxAge + 1] again when it fails.
    The same holds of every particle whose age exceeds [maxAge]. *)
Theorem stranded_particle_respawns_next_tick {B : Builtins}
  (field : VectorField.t) (options : VectorFieldAnim.Options)
  (inView : Q -> Q -> bool) :
  Built.grid_ok field = true ->
  (forall (par : VectorFieldAnim.Particle) (k : nat),
      VectorFieldAnim.stranded field options
        (fst (VectorFieldAnim.entering field options par k)) ->
      exists par1,
        VectorFieldAnim.moveParticle field options par k
        = Return (par1, snd (VectorFieldAnim.entering field options par k))
        /\ VectorFieldAnim.age par1 = (VectorFieldAnim.maxAge options + 1)%Z
        /\ VectorFieldAnim._drawParticle options inView par1 = Some par1
        /\ forall k2 : nat, Respawn.outcome field options par1 k2)
  /\ (forall (par : VectorFieldAnim.Particle) (k : nat),
      (VectorFieldAnim.age par > VectorFieldAnim.maxAge options)%Z ->
      VectorFieldAnim._drawParticle options inView par = Some par
      /\ Respawn.outcome field options par k).
Proof.
  intros Hok. split.
  - intros par k Hstr.
    destruct (moveParticle_cases field options Hok par k)
      as [[vec [Hadv _]]|[_ H]].
    + exfalso. exact (advances_not_stranded field options _ vec Hadv Hstr).
    + eexists. split; [exact H|].
      assert (Hage : (VectorFieldAnim.age
                        (VectorFieldAnim.set_age
                           (VectorFieldAnim.maxAge options + 1)
                           (fst (VectorFieldAnim.entering field options
                                   par k)))
                      > VectorFieldAnim.maxAge options)%Z)
        by (cbn [VectorFieldAnim.age VectorFieldAnim.set_age]; lia).
      split; [reflexivity|]. split.
      * exact (proj1 (old_particle_respawns field options inView Hok
                        _ 0%nat Hage)).
      * intros k2. exact (respawn_outcome field options _ k2 Hok Hage).
  - intros par k Hold. split.
    + exact (proj1 (old_particle_respawns field options inView Hok
                      par k Hold)).
    + exact (respawn_outcome field options par k Hok Hold).
Qed.

Lemma stranded_particle_respawns_next_tick_witness :
  exists par1,
    @VectorFieldAnim.moveParticle Scenario.builtins Scenario.FWind
      Scenario.animOptions Scenario.pNoData 0%nat
    = Return (par1, 0%nat)
    /\ VectorFieldAnim.age par1 = (2 + 1)%Z
    /\ VectorFieldAnim._drawParticle Scenario.animOptions
         Scenario.everywhere par1 = Some par1
    /\ forall k2 : nat,
       @Respawn.outcome Scenario.builtins Scenario.FWind
         Scenario.animOptions par1 k2.
Proof.
  apply (proj1 (@stranded_particle_respawns_next_tick Scenario.builtins
                  Scenario.FWind Scenario.animOptions Scenario.everywhere
                  eq_refl) Scenario.pNoData 0%nat).
  left. vm_compute. reflexivity.
Defined.

(** * Further properties of the code *)

(** Closes a side condition on a concrete field by evaluation. *)
Ltac by_evaluation :=
  first [ reflexivity
        | lia
        | repeat split; reflexivity
        | vm_compute; intuition congruence ].

(** ** The footprint of a cell *)

Lemma Math_floor_unique (q : Q) (i : Z) :
  inject_Z i <= q -> q < inject_Z (i + 1) -> Math_floor q = i.
Proof.
  intros Hlo Hhi. unfold Math_floor.
  pose proof (Qfloor_resp_le _ _ Hlo) as H1. rewrite Qfloor_Z in H1.
  pose proof (Qfloor_le q) as H2.
  assert (H3 : inject_Z (Qfloor q) < inject_Z (i + 1))
    by (eapply Qle_lt_trans; eassumption).
  rewrite <- Zlt_Qlt in H3. lia.
Qed.

Lemma ltb_false_iff (x y : Q) : JS.ltb x y = false <-> y <= x.
Proof.
  unfold JS.ltb. rewrite negb_false_iff. apply Qle_bool_iff.
Qed.

Lemma leb_true_iff (x y : Q) : JS.leb x y = true <-> x <= y.
Proof. unfold JS.leb. apply Qle_bool_iff. Qed.

Lemma gtb_false_iff (x y : Q) : JS.gtb x y = false <-> x <= y.
Proof.
  unfold JS.gtb. rewrite negb_false_iff. apply Qle_bool_iff.
Qed.

Lemma inject_Z_le_mult (a b : Z) (c : Q) :
  (a <= b)%Z -> 0 < c -> inject_Z a * c <= inject_Z b * c.
Proof.
  intros Hab Hc. apply Qmult_le_compat_r; [|apply Qlt_le_weak; exact Hc].
  rewrite <- Zle_Qle. exact Hab.
Qed.

Lemma inject_Z_succ (i : Z) : inject_Z (i + 1) == inject_Z i + 1.
Proof. rewrite inject_Z_plus. reflexivity. Qed.

(** The decimal indexes of a point of the footprint of the cell [(i, j)]
    have the integer parts [i] and [j]. *)
Lemma footprint_indexes {T D} (F : Field.t T D) (i j : Z) (lon lat : Q) :
  Geometry.cells_positive F ->
  (0 <= i)%Z ->
  Geometry.in_footprint F i j lon lat ->
  Math_floor (fst (Field._getDecimalIndexes F lon lat)) = i
  /\ Math_floor (snd (Field._getDecimalIndexes F lon lat)) = j.
Proof.
  intros [Hx Hy] Hi [Hw [He [Hs Hn]]].
  unfold Field._getDecimalIndexes.
  assert (Hge : Field.xllCorner F <= lon).
  { pose proof (inject_Z_le_mult 0 i _ Hi Hx) as H0.
    change (inject_Z 0) with 0 in H0. lra. }
  apply ltb_false_iff in Hge. rewrite Hge, andb_false_r. cbn [fst snd].
  rewrite inject_Z_succ in He, Hs.
  split; apply Math_floor_unique.
  - apply Qle_shift_div_l; [exact Hx|]. lra.
  - apply Qlt_shift_div_r; [exact Hx|]. rewrite inject_Z_succ. lra.
  - apply Qle_shift_div_l; [exact Hy|]. lra.
  - apply Qlt_shift_div_r; [exact Hy|]. rewrite inject_Z_succ. lra.
Qed.

Lemma footprint_in_extent {T D} (F : Field.t T D) (i j : Z) (lon lat : Q) :
  Geometry.corners_ok F ->
  Geometry.cells_positive F ->
  Field.longitudeNeedsToBeWrapped F = false ->
  (0 <= i < Field.nCols F)%Z -> (0 <= j < Field.nRows F)%Z ->
  Geometry.in_footprint F i j lon lat ->
  Field._pointInExtent F lon lat = true.
Proof.
  intros [Hxur Hyur] [Hx Hy] Hwrap Hi Hj [Hw [He [Hs Hn]]].
  unfold Field._pointInExtent, Field._getWrappedLongitudes. rewrite Hwrap.
  pose proof (inject_Z_le_mult 0 i _ (proj1 Hi) Hx) as H0.
  pose proof (inject_Z_le_mult (i + 1) (Field.nCols F) _ ltac:(lia) Hx) as H1.
  pose proof (inject_Z_le_mult 0 j _ (proj1 Hj) Hy) as H2.
  pose proof (inject_Z_le_mult (j + 1) (Field.nRows F) _ ltac:(lia) Hy) as H3.
  change (inject_Z 0) with 0 in H0, H2.
  repeat (apply andb_true_intro; split).
  - apply geb_true_iff. lra.
  - apply leb_true_iff. lra.
  - apply geb_true_iff. lra.
  - apply leb_true_iff. lra.
Qed.

(** In the exact arithmetic of this file, [valueAt] at a point of the
    footprint of the cell [(i, j)] of a field stored west of 180, without
    filter and mask, returns the grid value of that cell. *)
Lemma valueAt_footprint {T D} (F : Field.t T D) (i j : Z) (lon lat : Q) :
  Built.grid_ok F = true ->
  Geometry.corners_ok F ->
  Geometry.cells_positive F ->
  Geometry.plain F ->
  Field.longitudeNeedsToBeWrapped F = false ->
  (0 <= i < Field.nCols F)%Z -> (0 <= j < Field.nRows F)%Z ->
  Geometry.in_footprint F i j lon lat ->
  Field.valueAt F lon lat = Return (Built.cell F i j).
Proof.
  intros Hok Hcorners Hpos [Hnf Hnm] Hwrap Hi Hj Hfp.
  pose proof (footprint_in_extent F i j lon lat Hcorners Hpos Hwrap Hi Hj Hfp)
    as Hin.
  destruct (footprint_indexes F i j lon lat Hpos (proj1 Hi) Hfp) as [Hfi Hfj].
  unfold Field.valueAt, Field.notContains, Field.contains.
  rewrite Hnm, Hin. cbn [negb].
  destruct (Field._getDecimalIndexes F lon lat) as [di dj].
  cbn [fst snd] in Hfi, Hfj. rewrite Hfi, Hfj.
  rewrite _clampColumnIndex_cases, _clampRowIndex_cases by lia.
  destruct (Z.ltb_spec i 0); [lia|].
  destruct (Z.gtb_spec i (Field.nCols F - 1)); [lia|].
  destruct (Z.ltb_spec j 0); [lia|].
  destruct (Z.gtb_spec j (Field.nRows F - 1)); [lia|].
  destruct (_valueAtIndexes_shaped F i j (grid_ok_shaped F Hok) Hi Hj)
    as [v [Hv [Hcell _]]].
  rewrite Hv. cbn [JS.bind]. rewrite Hnf, Hcell. reflexivity.
Qed.


Lemma valueAt_of_indexes {T D} (F : Field.t T D) (i j : Z) (lon lat : Q) :
  Built.grid_ok F = true ->
  Geometry.plain F ->
  Field._pointInExtent F lon lat = true ->
  Math_floor (fst (Field._getDecimalIndexes F lon lat)) = i ->
  Math_floor (snd (Field._getDecimalIndexes F lon lat)) = j ->
  (0 <= i < Field.nCols F)%Z -> (0 <= j < Field.nRows F)%Z ->
  Field.valueAt F lon lat = Return (Built.cell F i j).
Proof.
  intros Hok [Hnf Hnm] Hin Hfi Hfj Hi Hj.
  unfold Field.valueAt, Field.notContains, Field.contains.
  rewrite Hnm, Hin. cbn [negb].
  destruct (Field._getDecimalIndexes F lon lat) as [di dj].
  cbn [fst snd] in Hfi, Hfj. rewrite Hfi, Hfj.
  rewrite _clampColumnIndex_cases, _clampRowIndex_cases by lia.
  destruct (Z.ltb_spec i 0); [lia|].
  destruct (Z.gtb_spec i (Field.nCols F - 1)); [lia|].
  destruct (Z.ltb_spec j 0); [lia|].
  destruct (Z.gtb_spec j (Field.nRows F - 1)); [lia|].
  destruct (_valueAtIndexes_shaped F i j (grid_ok_shaped F Hok) Hi Hj)
    as [v [Hv [Hcell _]]].
  rewrite Hv. cbn [JS.bind]. rewrite Hnf, Hcell. reflexivity.
Qed.

(** ** Cell centres are read back *)

Lemma centre_in_footprint {T D} (F : Field.t T D) (i j : Z) :
  Geometry.cells_positive F ->
  Field.longitudeNeedsToBeWrapped F = false ->
  Geometry.in_footprint F i j (Field._longitudeAtX F i)
                        (Field._latitudeAtY F j).
Proof.
  intros [Hx Hy] Hwrap. unfold Geometry.in_footprint, Field._longitudeAtX,
    Field._latitudeAtY. rewrite Hwrap. rewrite !inject_Z_succ.
  assert (Hhx : 0 < Field.cellXSize F / 2)
    by (apply Qlt_shift_div_l; lra).
  assert (Hhy : 0 < Field.cellYSize F / 2)
    by (apply Qlt_shift_div_l; lra).
  assert (Hdx : Field.cellXSize F / 2 + Field.cellXSize F / 2
                == Field.cellXSize F) by field.
  assert (Hdy : Field.cellYSize F / 2 + Field.cellYSize F / 2
                == Field.cellYSize F) by field.
  repeat split; lra.
Qed.



(** X3: on a global field stored in [xll, xll + 360] with [xll] between -180
    and 180, without filter and mask, the centre of every cell is read back
    as well, whether [_longitudeAtX] shifts it by -360 or not:
    [_getDecimalIndexes] undoes the shift. *)
Theorem valueAt_at_centre_global {T D} (F : Field.t T D) (i j : Z) :
  Built.grid_ok F = true ->
  Built.flags_ok F = true ->
  Geometry.corners_ok F ->
  Geometry.cells_positive F ->
  Geometry.plain F ->
  Field.longitudeNeedsToBeWrapped F = true ->
  Field.xurCorner F - Field.xllCorner F == 360 ->
  -180 <= Field.xllCorner F -> Field.xllCorner F <= 180 ->
  (0 <= i < Field.nCols F)%Z -> (0 <= j < Field.nRows F)%Z ->
  Field.valueAt F (fst (Field._lonLatAtIndexes F i j))
                  (snd (Field._lonLatAtIndexes F i j))
  = Return (Built.cell F i j).
Proof.
  intros Hok Hflags [Hxur Hyur] [Hx Hy] Hplain Hwrap Hspan Hlo Hhi Hi Hj.
  unfold Built.flags_ok in Hflags. apply andb_prop in Hflags.
  destruct Hflags as [Hc _]. apply Bool.eqb_prop in Hc.
  assert (Hcont : Field.isContinuous F = true).
  { rewrite Hc. apply geb_true_iff. lra. }
  pose proof (inject_Z_le_mult 0 i _ (proj1 Hi) Hx) as H0.
  pose proof (inject_Z_le_mult (i + 1) (Field.nCols F) _ ltac:(lia) Hx) as H1.
  pose proof (inject_Z_le_mult 0 j _ (proj1 Hj) Hy) as H2.
  pose proof (inject_Z_le_mult (j + 1) (Field.nRows F) _ ltac:(lia) Hy) as H3.
  change (inject_Z 0) with 0 in H0, H2. rewrite inject_Z_succ in H1, H3.
  assert (Hhx : 0 < Field.cellXSize F / 2)
    by (apply Qlt_shift_div_l; lra).
  assert (Hhy : 0 < Field.cellYSize F / 2)
    by (apply Qlt_shift_div_l; lra).
  assert (Hdx : Field.cellXSize F / 2 + Field.cellXSize F / 2
                == Field.cellXSize F) by field.
  assert (Hdy : Field.cellYSize F / 2 + Field.cellYSize F / 2
                == Field.cellYSize F) by field.
  cbn [Field._lonLatAtIndexes fst snd].
  apply valueAt_of_indexes; try assumption.
  - unfold Field._pointInExtent, Field._getWrappedLongitudes,
      Field._longitudeAtX, Field._latitudeAtY.
    rewrite Hwrap, Hcont.
    destruct (JS.gtb _ 180) eqn:Hg.
    + apply gtb_true_iff in Hg.
      repeat (apply andb_true_intro; split);
        first [apply geb_true_iff | apply leb_true_iff]; lra.
    + apply gtb_false_iff in Hg.
      repeat (apply andb_true_intro; split);
        first [apply geb_true_iff | apply leb_true_iff]; lra.
  - unfold Field._getDecimalIndexes, Field._longitudeAtX. rewrite Hwrap.
    cbn [andb fst].
    destruct (JS.gtb _ 180) eqn:Hg.
    + apply gtb_true_iff in Hg.
      assert (Hlt : JS.ltb (Field.xllCorner F + Field.cellXSize F / 2
                            + inject_Z i * Field.cellXSize F - 360)
                           (Field.xllCorner F) = true).
      { unfold JS.ltb. apply negb_true_iff.
        destruct (Qle_bool _ _) eqn:E; [|reflexivity].
        apply Qle_bool_iff in E. lra. }
      rewrite Hlt. apply Math_floor_unique.
      * apply Qle_shift_div_l; [exact Hx|]. lra.
      * apply Qlt_shift_div_r; [exact Hx|]. rewrite inject_Z_succ. lra.
    + assert (Hge : JS.ltb (Field.xllCorner F + Field.cellXSize F / 2
                            + inject_Z i * Field.cellXSize F)
                           (Field.xllCorner F) = false).
      { apply ltb_false_iff. lra. }
      rewrite Hge. apply Math_floor_unique.
      * apply Qle_shift_div_l; [exact Hx|]. lra.
      * apply Qlt_shift_div_r; [exact Hx|]. rewrite inject_Z_succ. lra.
  - unfold Field._getDecimalIndexes, Field._latitudeAtY. cbn [snd].
    apply Math_floor_unique.
    + apply Qle_shift_div_l; [exact Hy|]. lra.
    + apply Qlt_shift_div_r; [exact Hy|]. rewrite inject_Z_succ. lra.
Qed.

Lemma valueAt_at_centre_global_witness :
  Field.valueAt Scenario.FGlobal
    (fst (Field._lonLatAtIndexes Scenario.FGlobal 3 1))
    (snd (Field._lonLatAtIndexes Scenario.FGlobal 3 1))
  = Return (Built.cell Scenario.FGlobal 3 1).
Proof.
  apply (valueAt_at_centre_global Scenario.FGlobal 3 1); by_evaluation.
Defined.

(** ** Queries outside the field *)

(** A point that [contains] rejects gives no value and raises nothing. *)
Lemma outside_no_value {T D} {impl : Field.Impl T D}
  (F : Field.t T D) (lon lat : Q) :
  Field.contains F lon lat = false ->
  Field.valueAt F lon lat = Return null
  /\ Field.interpolatedValueAt F lon lat = null
  /\ Field.hasValueAt F lon lat = Return false
  /\ Field.notHasValueAt F lon lat = Return true.
Proof.
  intros Hout.
  assert (Hv : Field.valueAt F lon lat = Return null).
  { unfold Field.valueAt, Field.notContains. rewrite Hout. reflexivity. }
  assert (Hh : Field.hasValueAt F lon lat = Return false).
  { unfold Field.hasValueAt. rewrite Hv. reflexivity. }
  repeat split.
  - exact Hv.
  - unfold Field.interpolatedValueAt, Field.notContains. rewrite Hout.
    reflexivity.
  - exact Hh.
  - unfold Field.notHasValueAt. rewrite Hh. reflexivity.
Qed.


(** X4: on a field that ends east of 180 without spanning 360 degrees, and
    has no mask, every longitude at or east of [xllCorner] is outside: the
    extent is the one shifted by -360, so a point given in the coordinates in
    which the grid is stored has no value. *)
Theorem regional_wrapped_rejects_native_longitudes {T D}
  {impl : Field.Impl T D} (F : Field.t T D) (lon lat : Q) :
  Built.flags_ok F = true ->
  180 < Field.xurCorner F ->
  Field.xurCorner F - Field.xllCorner F < 360 ->
  Field._spatialMask F = None ->
  Field.xllCorner F <= lon ->
  Field.contains F lon lat = false
  /\ Field.valueAt F lon lat = Return null
  /\ Field.interpolatedValueAt F lon lat = null.
Proof.
  intros Hflags Hwrap Hspan Hnm Hlon.
  assert (Hout : Field.contains F lon lat = false).
  { unfold Built.flags_ok in Hflags. apply andb_prop in Hflags.
    destruct Hflags as [Hc Hw].
    apply Bool.eqb_prop in Hc. apply Bool.eqb_prop in Hw.
    apply gtb_true_iff in Hwrap. rewrite Hwrap in Hw.
    apply geb_false_iff in Hspan. rewrite Hspan in Hc.
    unfold Field.contains, Field._pointInExtent, Field._getWrappedLongitudes.
    rewrite Hnm, Hw, Hc.
    assert (Hle : JS.leb lon (Field.xurCorner F - 360) = false).
    { unfold JS.leb. destruct (Qle_bool _ _) eqn:E; [|reflexivity].
      apply Qle_bool_iff in E. apply geb_false_iff in Hspan. lra. }
    rewrite Hle, andb_false_r. reflexivity. }
  split; [exact Hout|].
  destruct (outside_no_value F lon lat Hout) as [Hv [Hi _]].
  split; assumption.
Qed.

Lemma regional_wrapped_rejects_native_longitudes_witness :
  Field.contains Scenario.FPacific
    (fst (Field._lonLatAtIndexes Scenario.FPacific 0 0))
    (snd (Field._lonLatAtIndexes Scenario.FPacific 0 0)) = false
  /\ Field.valueAt Scenario.FPacific
       (fst (Field._lonLatAtIndexes Scenario.FPacific 0 0))
       (snd (Field._lonLatAtIndexes Scenario.FPacific 0 0)) = Return null
  /\ Field.interpolatedValueAt Scenario.FPacific
       (fst (Field._lonLatAtIndexes Scenario.FPacific 0 0))
       (snd (Field._lonLatAtIndexes Scenario.FPacific 0 0)) = null.
Proof.
  apply (regional_wrapped_rejects_native_longitudes Scenario.FPacific);
    by_evaluation.
Defined.

(** ** A field without rows *)

Lemma ScalarField_new_no_rows (p : Field.Params ScalarField.Data)
  (F : ScalarField.t) :
  (Field.p_nRows p <= 0)%Z ->
  ScalarField.new p = Return F ->
  Field.grid F = [].
Proof.
  intros Hr Hnew. unfold ScalarField.new in Hnew.
  unfold ScalarField._buildGrid, ScalarField._arrayTo2d in Hnew.
  cbn [Field.init Field.data Field.nRows Field.nCols] in Hnew.
  replace (Z.to_nat (Field.p_nRows p)) with 0%nat in Hnew by lia.
  cbn [ScalarField.fill_grid JS.bind] in Hnew.
  unfold Field._updateRange in Hnew.
  destruct (Field._calculateRange _) as [r|e]; [|discriminate].
  injection Hnew as <-. reflexivity.
Qed.

(** X5: a descriptor that declares no rows and brings its array is accepted
    by the constructor, which returns a field with an empty grid; on that
    field [valueAt] and [hasValueAt] raise a [TypeError] at every point that
    [contains] accepts, while [interpolatedValueAt] returns [null] there. *)
Theorem valueAt_raises_without_rows (p : Field.Params ScalarField.Data)
  (zs : Array Q) :
  Field.p_data p = Some zs ->
  (Field.p_nRows p <= 0)%Z ->
  exists F : ScalarField.t,
    ScalarField.new p = Return F
    /\ Field.grid F = []
    /\ forall lon lat : Q,
         Field.contains F lon lat = true ->
         Field.valueAt F lon lat = Throw TypeError
         /\ Field.hasValueAt F lon lat = Throw TypeError
         /\ Field.interpolatedValueAt F lon lat = null.
Proof.
  intros Hzs Hr.
  pose proof (ScalarField_new_some p zs Hzs) as Hnew.
  set (F := Field.set_range _ _) in Hnew.
  pose proof (ScalarField_new_no_rows p F Hr Hnew) as Hg.
  exists F. split; [exact Hnew|]. split; [exact Hg|].
  intros lon lat Hin.
  assert (Hrow : forall k, Field.row F k = None).
  { intros k. unfold Field.row. rewrite Hg.
    destruct (k <? 0)%Z; [reflexivity|]. destruct (Z.to_nat k); reflexivity. }
  assert (Hv : Field.valueAt F lon lat = Throw TypeError).
  { unfold Field.valueAt, Field.notContains. rewrite Hin. cbn [negb].
    destruct (Field._getDecimalIndexes F lon lat) as [di dj].
    unfold Field._valueAtIndexes. rewrite Hrow. reflexivity. }
  repeat split.
  - exact Hv.
  - unfold Field.hasValueAt. rewrite Hv. reflexivity.
  - unfold Field.interpolatedValueAt, Field.notContains. rewrite Hin.
    cbn [negb]. destruct (Field._getDecimalIndexes F lon lat) as [di dj].
    unfold Field.interpolatedValueAtIndexes.
    destruct (Field._getFourSurroundingIndexes F di dj) as [[[fi ci] fj] cj].
    unfold Field._getFourSurroundingValues. rewrite Hrow. reflexivity.
Qed.

Lemma valueAt_raises_without_rows_witness :
  ScalarField.new Scenario2.paramsNoRows = Return Scenario2.FNoRows
  /\ Field.grid Scenario2.FNoRows = []
  /\ Field.contains Scenario2.FNoRows 1 0 = true
  /\ Field.valueAt Scenario2.FNoRows 1 0 = Throw TypeError
  /\ Field.hasValueAt Scenario2.FNoRows 1 0 = Throw TypeError
  /\ Field.interpolatedValueAt Scenario2.FNoRows 1 0 = null.
Proof.
  destruct (valueAt_raises_without_rows Scenario2.paramsNoRows []
              eq_refl ltac:(vm_compute; congruence))
    as [F [Hnew [Hg Hall]]].
  assert (HF : F = Scenario2.FNoRows).
  { assert (H : ScalarField.new Scenario2.paramsNoRows
                = Return Scenario2.FNoRows) by reflexivity.
    rewrite Hnew in H. injection H as H. exact H. }
  subst F. split; [exact Hnew|]. split; [exact Hg|].
  split; [reflexivity|]. apply Hall. reflexivity.
Defined.

(** ** The list of all cells *)

Lemma strided_1 (n : Z) :
  Field.strided 1 n = map Z.of_nat (seq 0 (Z.to_nat n)).
Proof.
  unfold Field.strided.
  replace ((n + 1 - 1) / 1)%Z with n by (rewrite Z.div_1_r; lia).
  apply map_ext. intros k. lia.
Qed.

Lemma cells_of_row_eq {T D} (F : Field.t T D) (j : Z) (r : Array T)
  (cols : list Z) :
  Field.row F j = Some r ->
  Field.cells_of_row F j cols
  = Return (map (fun i => Geometry.cell_at F i j) cols).
Proof.
  intros Hr. induction cols as [|i cols IH]; [reflexivity|].
  cbn [Field.cells_of_row map]. unfold Field._lonLatAtIndexes.
  unfold Field._valueAtIndexes. rewrite Hr. cbn [JS.bind]. rewrite IH.
  cbn [JS.bind]. unfold Geometry.cell_at, Built.cell. rewrite Hr.
  reflexivity.
Qed.

Lemma cells_of_rows_eq {T D} (F : Field.t T D) (rows cols : list Z) :
  Forall (fun j => exists r, Field.row F j = Some r) rows ->
  Field.cells_of_rows F rows cols
  = Return (flat_map (fun j => map (fun i => Geometry.cell_at F i j) cols)
                     rows).
Proof.
  intros H. induction H as [|j rows [r Hr] _ IH]; [reflexivity|].
  cbn [Field.cells_of_rows flat_map].
  rewrite (cells_of_row_eq F j r cols Hr). cbn [JS.bind]. rewrite IH.
  reflexivity.
Qed.

Lemma flat_map_map {A B C} (f : B -> list C) (g : A -> B) (l : list A) :
  flat_map f (map g l) = flat_map (fun a => f (g a)) l.
Proof.
  induction l as [|a l IH]; [reflexivity|]. cbn. rewrite IH. reflexivity.
Qed.

Lemma length_tabulated_rows {A} (h : nat -> nat -> A) (C R : nat) :
  forall s,
    length (flat_map (fun r => map (h r) (seq 0 C)) (seq s R)) = (R * C)%nat.
Proof.
  induction R as [|R IH]; intros s; [reflexivity|].
  cbn [seq flat_map]. rewrite length_app, length_map, length_seq, IH.
  reflexivity.
Qed.

Lemma nth_error_tabulated_rows {A} (h : nat -> nat -> A) (C R : nat) :
  forall s j i,
    (j < R)%nat -> (i < C)%nat ->
    nth_error (flat_map (fun r => map (h r) (seq 0 C)) (seq s R))
              (j * C + i)
    = Some (h (s + j)%nat i).
Proof.
  induction R as [|R IH]; intros s j i Hj Hi; [lia|].
  cbn [seq flat_map]. destruct j as [|j].
  - cbn [Nat.mul Nat.add]. rewrite nth_error_app1
      by (rewrite length_map, length_seq; exact Hi).
    rewrite Nat.add_0_r. apply nth_error_tabulate. exact Hi.
  - rewrite nth_error_app2 by (rewrite length_map, length_seq; lia).
    rewrite length_map, length_seq.
    replace (S j * C + i - C)%nat with (j * C + i)%nat by lia.
    rewrite IH by lia. do 2 f_equal. lia.
Qed.

Lemma getCells_eq {T D} (F : Field.t T D) :
  Built.grid_ok F = true ->
  Field.getCells F 1
  = Return (flat_map
              (fun r => map (fun c => Geometry.cell_at F (Z.of_nat c)
                                                       (Z.of_nat r))
                            (seq 0 (Z.to_nat (Field.nCols F))))
              (seq 0 (Z.to_nat (Field.nRows F)))).
Proof.
  intros Hok. unfold Field.getCells. rewrite !strided_1.
  rewrite cells_of_rows_eq.
  - rewrite flat_map_map. f_equal. apply flat_map_ext. intros r.
    rewrite map_map. reflexivity.
  - apply Forall_forall. intros j Hj. apply in_map_iff in Hj.
    destruct Hj as [k [<- Hk]]. apply in_seq in Hk.
    destruct (grid_ok_shaped F Hok (Z.of_nat k) ltac:(lia)) as [r [Hr _]].
    exists r. exact Hr.
Qed.

(** X6: on a built field [getCells()] returns one cell per grid position,
    row after row: [nRows * nCols] cells, and the cell at the place
    [j * nCols + i] carries the centre of the cell [(i, j)], its grid value
    and the cell sizes. *)
Theorem getCells_row_major {T D} (F : Field.t T D) :
  Built.grid_ok F = true ->
  exists cells,
    Field.getCells F 1 = Return cells
    /\ Z.of_nat (length cells) = Field.numCells F
    /\ forall i j : Z,
         (0 <= i < Field.nCols F)%Z -> (0 <= j < Field.nRows F)%Z ->
         nth_error cells (Z.to_nat (j * Field.nCols F + i))
         = Some (Cell.mk (snd (Field._lonLatAtIndexes F i j),
                          fst (Field._lonLatAtIndexes F i j))
                         (Built.cell F i j)
                         (Field.cellXSize F) (Field.cellYSize F)).
Proof.
  intros Hok. destruct (grid_ok_dims F Hok) as [Hr Hc].
  eexists. split; [exact (getCells_eq F Hok)|]. split.
  - rewrite length_tabulated_rows. unfold Field.numCells. nia.
  - intros i j Hi Hj.
    replace (Z.to_nat (j * Field.nCols F + i))
      with (Z.to_nat j * Z.to_nat (Field.nCols F) + Z.to_nat i)%nat by nia.
    rewrite nth_error_tabulated_rows by lia.
    cbn [Nat.add]. rewrite !Z2Nat.id by lia. reflexivity.
Qed.

Lemma getCells_row_major_witness :
  exists cells,
    Field.getCells Scenario.F22 1 = Return cells
    /\ Z.of_nat (length cells) = Field.numCells Scenario.F22
    /\ forall i j : Z,
         (0 <= i < Field.nCols Scenario.F22)%Z ->
         (0 <= j < Field.nRows Scenario.F22)%Z ->
         nth_error cells (Z.to_nat (j * Field.nCols Scenario.F22 + i))
         = Some (Cell.mk (snd (Field._lonLatAtIndexes Scenario.F22 i j),
                          fst (Field._lonLatAtIndexes Scenario.F22 i j))
                         (Built.cell Scenario.F22 i j)
                         (Field.cellXSize Scenario.F22)
                         (Field.cellYSize Scenario.F22)).
Proof.
  apply (getCells_row_major Scenario.F22). reflexivity.
Defined.

Lemma flat_map_ext_in {A B} (f g : A -> list B) (l : list A) :
  (forall a, In a l -> f a = g a) -> flat_map f l = flat_map g l.
Proof.
  induction l as [|a l IH]; intros H; [reflexivity|].
  cbn [flat_map]. rewrite (H a (or_introl eq_refl)).
  rewrite IH by (intros b Hb; apply H; right; exact Hb). reflexivity.
Qed.

Lemma seq_offset (a n : nat) : map (Nat.add a) (seq 0 n) = seq a n.
Proof.
  revert a. induction n as [|n IH]; intros a; [reflexivity|].
  cbn [seq map]. rewrite Nat.add_0_r. f_equal.
  rewrite <- seq_shift, map_map. rewrite <- (IH (S a)).
  apply map_ext. intros k. lia.
Qed.

Lemma flat_tabulate {A} (f : nat -> A) (C R : nat) :
  forall s,
    flat_map (fun r => map (fun c => f (r * C + c)%nat) (seq 0 C)) (seq s R)
    = map f (seq (s * C) (R * C)).
Proof.
  induction R as [|R IH]; intros s; [reflexivity|].
  cbn [seq flat_map]. rewrite IH.
  replace (S R * C)%nat with (C + R * C)%nat by lia.
  rewrite seq_app, map_app. f_equal.
  - rewrite <- (seq_offset (s * C) C), map_map. reflexivity.
  - do 2 f_equal. lia.
Qed.

Lemma map_get_all {T A} (g : value T -> A) (zs : Array T) :
  map (fun k => g (get zs (Z.of_nat k))) (seq 0 (length zs)) = map g zs.
Proof.
  induction zs as [|z zs IH]; [reflexivity|].
  cbn [length]. rewrite tabulate_shift. cbn [map]. f_equal.
  rewrite <- IH. apply map_ext. intros k. f_equal.
  unfold get. destruct (Z.ltb_spec (Z.of_nat (S k)) 0); [lia|].
  destruct (Z.ltb_spec (Z.of_nat k) 0); [lia|].
  rewrite !Nat2Z.id. reflexivity.
Qed.

Lemma built_scalar_cell (p : Field.Params ScalarField.Data) (zs : Array Q)
  (F : ScalarField.t) (i j : Z) :
  Field.p_data p = Some zs ->
  ScalarField.new p = Return F ->
  (0 <= i < Field.p_nCols p)%Z -> (0 <= j < Field.p_nRows p)%Z ->
  Built.cell F i j = Built.stored (get zs (j * Field.p_nCols p + i)).
Proof.
  intros Hzs Hnew Hi Hj.
  rewrite (ScalarField_new_some p zs Hzs) in Hnew. injection Hnew as <-.
  pose proof (scalar_grid_cell p zs (d3.min zs, d3.max zs) i j Hi Hj) as Hv.
  unfold Field._valueAtIndexes in Hv. unfold Built.cell.
  destruct (Field.row _ j) as [r|]; [|discriminate].
  injection Hv as Hv. exact Hv.
Qed.

Lemma ScalarField_new_dims (p : Field.Params ScalarField.Data)
  (F : ScalarField.t) :
  ScalarField.new p = Return F ->
  Field.nCols F = Field.p_nCols p /\ Field.nRows F = Field.p_nRows p
  /\ Field.xllCorner F = Field.p_xllCorner p
  /\ Field.yllCorner F = Field.p_yllCorner p
  /\ Field.cellXSize F = Field.p_cellXSize p
  /\ Field.cellYSize F = Field.p_cellYSize p
  /\ Field.data F = Field.p_data p
  /\ Field._inFilter F = None /\ Field._spatialMask F = None
  /\ Geometry.corners_ok F.
Proof.
  intros Hnew. unfold ScalarField.new in Hnew.
  destruct (ScalarField._buildGrid (Field.init p)) as [g|e]; [|discriminate].
  cbn [JS.bind] in Hnew. unfold Field._updateRange in Hnew.
  destruct (Field._calculateRange _) as [r|e]; [|discriminate].
  injection Hnew as <-. unfold Geometry.corners_ok. cbn.
  repeat split; reflexivity.
Qed.

(** X7: the flat array comes back from the cells.  For a ScalarField built
    from a descriptor with positive dimensions whose array [zs] has
    [nRows * nCols] entries, the values of the cells of [getCells()], in
    order, are the entries of [zs], with [null] for an entry that is
    [undefined]. *)
Theorem getCells_values_are_zs (p : Field.Params ScalarField.Data)
  (zs : Array Q) (F : ScalarField.t) :
  Field.p_data p = Some zs ->
  ScalarField.new p = Return F ->
  (0 < Field.p_nRows p)%Z -> (0 < Field.p_nCols p)%Z ->
  Z.of_nat (length zs) = (Field.p_nRows p * Field.p_nCols p)%Z ->
  exists cells,
    Field.getCells F 1 = Return cells
    /\ map Cell.value cells = map Built.stored zs.
Proof.
  intros Hzs Hnew Hr Hc Hlen.
  pose proof (ScalarField_new_grid_ok p F Hnew Hr Hc) as Hok.
  destruct (ScalarField_new_dims p F Hnew) as [HnC [HnR _]].
  eexists. split; [exact (getCells_eq F Hok)|].
  rewrite HnC, HnR.
  set (R := Z.to_nat (Field.p_nRows p)).
  set (C := Z.to_nat (Field.p_nCols p)).
  transitivity
    (flat_map (fun r => map (fun c => Built.stored
                                        (get zs (Z.of_nat (r * C + c))))
                            (seq 0 C))
              (seq 0 R)).
  - rewrite flat_map_concat_map, concat_map, map_map,
      <- flat_map_concat_map.
    apply flat_map_ext_in. intros r Hin. apply in_seq in Hin.
    rewrite map_map. apply map_ext_in. intros c Hcin. apply in_seq in Hcin.
    cbn [Cell.value Geometry.cell_at].
    rewrite (built_scalar_cell p zs F _ _ Hzs Hnew) by (subst R C; lia).
    do 2 f_equal. subst C. lia.
  - rewrite (flat_tabulate
               (fun k => Built.stored (get zs (Z.of_nat k))) C R 0).
    cbn [Nat.mul]. replace (R * C)%nat with (length zs) by (subst R C; nia).
    apply map_get_all.
Qed.

Lemma getCells_values_are_zs_witness :
  exists cells,
    Field.getCells Scenario.F22 1 = Return cells
    /\ map Cell.value cells
       = map Built.stored [val 1; val 2; val 3; val 4].
Proof.
  apply (getCells_values_are_zs Scenario.params22
           [val 1; val 2; val 3; val 4] Scenario.F22); by_evaluation.
Defined.

(** ** Vector fields from scalar fields, and back *)

Lemma built_vector_cell {B : Builtins} (p : Field.Params VectorField.Data)
  (us vs : Array Q) (F : VectorField.t) (i j : Z) :
  Field.p_data p = (Some us, Some vs) ->
  VectorField.new p = Return F ->
  (0 <= i < Field.p_nCols p)%Z -> (0 <= j < Field.p_nRows p)%Z ->
  Built.cell F i j
  = Built.zipped (get us (j * Field.p_nCols p + i))
                 (get vs (j * Field.p_nCols p + i)).
Proof.
  intros Hd Hnew Hi Hj.
  destruct (VectorField_new_some p us vs Hd) as [r Hr].
  rewrite Hr in Hnew. injection Hnew as <-.
  pose proof (vector_grid_cell p us vs r i j Hi Hj) as Hv.
  unfold Field._valueAtIndexes in Hv. unfold Built.cell.
  destruct (Field.row _ j) as [row|]; [|discriminate].
  injection Hv as Hv. exact Hv.
Qed.

Lemma VectorField_new_dims {B : Builtins} (p : Field.Params VectorField.Data)
  (F : VectorField.t) :
  VectorField.new p = Return F ->
  Field.nCols F = Field.p_nCols p /\ Field.nRows F = Field.p_nRows p
  /\ Field.xllCorner F = Field.p_xllCorner p
  /\ Field.yllCorner F = Field.p_yllCorner p
  /\ Field.cellXSize F = Field.p_cellXSize p
  /\ Field.cellYSize F = Field.p_cellYSize p
  /\ Field.data F = Field.p_data p
  /\ Field._inFilter F = None /\ Field._spatialMask F = None
  /\ Geometry.corners_ok F.
Proof.
  intros Hnew. unfold VectorField.new in Hnew. cbv zeta in Hnew.
  destruct (VectorField._buildGrid (Field.init p)) as [g|e]; [|discriminate].
  cbn [JS.bind] in Hnew.
  destruct (VectorField._calculateRange _) as [r|e]; [|discriminate].
  injection Hnew as <-. unfold Geometry.corners_ok. cbn.
  repeat split; reflexivity.
Qed.

Lemma zipped_stored (x y : value Q) :
  Built.zipped x y
  = match Built.stored x, Built.stored y with
    | val a, val b => val (Vector.mk a b)
    | _, _ => null
    end.
Proof. destruct x, y; reflexivity. Qed.

(** X8: a VectorField made from two scalar fields [u] and [v] has the
    geometry of [u]; [v] is not checked.  When [v] has as many columns as
    [u], the cell [(i, j)] holds the vector of the two scalars of that cell,
    and no data as soon as one of them has none. *)
Theorem fromScalarFields_cells {B : Builtins}
  (pu pv : Field.Params ScalarField.Data) (us vs : Array Q)
  (u v : ScalarField.t) :
  Field.p_data pu = Some us -> Field.p_data pv = Some vs ->
  ScalarField.new pu = Return u -> ScalarField.new pv = Return v ->
  Field.p_nCols pv = Field.p_nCols pu ->
  exists F : VectorField.t,
    Derived.fromScalarFields u v = Return F
    /\ Field.nCols F = Field.nCols u /\ Field.nRows F = Field.nRows u
    /\ Field.extent F = Field.extent u
    /\ Field.cellXSize F = Field.cellXSize u
    /\ Field.cellYSize F = Field.cellYSize u
    /\ forall i j : Z,
         (0 <= i < Field.nCols u)%Z ->
         (0 <= j < Field.nRows u)%Z -> (j < Field.nRows v)%Z ->
         Built.cell F i j
         = match Built.cell u i j, Built.cell v i j with
           | val a, val b => val (Vector.mk a b)
           | _, _ => null
           end.
Proof.
  intros Hus Hvs Hu Hv Hcols.
  destruct (ScalarField_new_dims pu u Hu)
    as [HuC [HuR [_ [_ [_ [_ [Hud _]]]]]]].
  destruct (ScalarField_new_dims pv v Hv) as [_ [HvR [_ [_ [_ [_ [Hvd _]]]]]]].
  set (p := Derived._paramsFromScalarFields u v).
  assert (Hd : Field.p_data p = (Some us, Some vs)).
  { subst p. unfold Derived._paramsFromScalarFields. cbn [Field.p_data].
    rewrite Hud, Hvd, Hus, Hvs. reflexivity. }
  destruct (VectorField_new_some p us vs Hd) as [r Hr].
  eexists. split; [exact Hr|].
  split; [reflexivity|]. split; [reflexivity|].
  split.
  { pose proof Hu as Hu'.
    rewrite (ScalarField_new_some pu us Hus) in Hu'. injection Hu' as Hu'.
    subst p. rewrite <- Hu'. reflexivity. }
  split; [reflexivity|]. split; [reflexivity|].
  intros i j Hi Hj Hjv.
  rewrite (built_vector_cell p us vs _ i j Hd Hr) by (subst p; cbn; lia).
  rewrite (built_scalar_cell pu us u i j Hus Hu) by lia.
  rewrite (built_scalar_cell pv vs v i j Hvs Hv) by lia.
  subst p. cbn [Derived._paramsFromScalarFields Field.p_nCols].
  rewrite Hcols, HuC. apply zipped_stored.
Qed.

Lemma fromScalarFields_cells_witness :
  exists F : VectorField.t,
    @Derived.fromScalarFields Scenario.builtins Scenario.F22
       Scenario.F22 = Return F
    /\ Field.nCols F = Field.nCols Scenario.F22
    /\ Field.nRows F = Field.nRows Scenario.F22
    /\ Field.extent F = Field.extent Scenario.F22
    /\ Field.cellXSize F = Field.cellXSize Scenario.F22
    /\ Field.cellYSize F = Field.cellYSize Scenario.F22
    /\ forall i j : Z,
         (0 <= i < Field.nCols Scenario.F22)%Z ->
         (0 <= j < Field.nRows Scenario.F22)%Z ->
         (j < Field.nRows Scenario.F22)%Z ->
         Built.cell F i j
         = match Built.cell Scenario.F22 i j, Built.cell Scenario.F22 i j with
           | val a, val b => val (Vector.mk a b)
           | _, _ => null
           end.
Proof.
  apply (@fromScalarFields_cells Scenario.builtins Scenario.params22
           Scenario.params22 [val 1; val 2; val 3; val 4]
           [val 1; val 2; val 3; val 4] Scenario.F22 Scenario.F22);
    by_evaluation.
Defined.

Lemma apply_loop_some (func : Q -> Q -> Q) (us vs : Array Q) (n : nat) :
  forall (i : Z) (zs : Array Q),
    Derived.apply_loop func (Some us) (Some vs) n i zs
    = Return (zs ++ map (fun k =>
                           match get us (i + Z.of_nat k),
                                 get vs (i + Z.of_nat k) with
                           | val u', val v' => val (func u' v')
                           | _, _ => null
                           end)
                        (seq 0 n)).
Proof.
  induction n as [|n IH]; intros i zs.
  - cbn. rewrite app_nil_r. reflexivity.
  - cbn [Derived.apply_loop read JS.bind]. rewrite IH.
    rewrite tabulate_shift, <- app_assoc. cbn [app].
    do 3 f_equal.
    + rewrite Z.add_0_r. reflexivity.
    + apply map_ext. intros k.
      replace (i + 1 + Z.of_nat k)%Z with (i + Z.of_nat (S k))%Z by lia.
      reflexivity.
Qed.

(** X9: [getScalarField(type)] of a built VectorField returns a ScalarField
    with the same dimensions, corner and cell sizes, in which the cell
    [(i, j)] holds the chosen quantity of the vector of that cell, and no
    data where the vector field has none. *)
Theorem getScalarField_cells {B : Builtins} {G : Trig}
  (p : Field.Params VectorField.Data) (us vs : Array Q) (F : VectorField.t)
  (type : Derived.Kind) :
  Field.p_data p = (Some us, Some vs) ->
  VectorField.new p = Return F ->
  exists S : ScalarField.t,
    Derived.getScalarField F type = Return S
    /\ Field.nCols S = Field.nCols F /\ Field.nRows S = Field.nRows F
    /\ Field.xllCorner S = Field.xllCorner F
    /\ Field.yllCorner S = Field.yllCorner F
    /\ Field.cellXSize S = Field.cellXSize F
    /\ Field.cellYSize S = Field.cellYSize F
    /\ forall i j : Z,
         (0 <= i < Field.nCols F)%Z -> (0 <= j < Field.nRows F)%Z ->
         Built.cell S i j
         = match Built.cell F i j with
           | val w =>
               val (Derived._getFunctionFor type (Vector.u w) (Vector.v w))
           | _ => null
           end.
Proof.
  intros Hd Hnew.
  destruct (VectorField_new_dims p F Hnew)
    as [HC [HR [_ [_ [_ [_ [HD _]]]]]]].
  unfold Derived.getScalarField, Derived._applyOnField.
  rewrite HD, Hd. cbn [fst snd]. rewrite apply_loop_some.
  cbn [JS.bind app].
  set (zs := map _ (seq 0 _)).
  set (q := Field.mkParams (Field.nCols F) (Field.nRows F)
              (Field.xllCorner F) (Field.yllCorner F)
              (Field.cellXSize F) (Field.cellYSize F) (Some zs)).
  pose proof (ScalarField_new_some q zs eq_refl) as HS.
  eexists. split; [exact HS|].
  do 6 (split; [reflexivity|]).
  intros i j Hi Hj.
  rewrite (built_scalar_cell q zs _ i j eq_refl HS) by (subst q; cbn; lia).
  rewrite (built_vector_cell p us vs F i j Hd Hnew) by lia.
  subst q. cbn [Field.p_nCols]. rewrite HC. subst zs.
  rewrite get_tabulate by (unfold Field.numCells; nia).
  rewrite Z2Nat.id by nia. cbn [Z.add].
  destruct (get us _) as [| |a], (get vs _) as [| |b]; reflexivity.
Qed.

Lemma getScalarField_cells_witness :
  exists S : ScalarField.t,
    @Derived.getScalarField Scenario.builtins Scenario2.trig Scenario.FWind
      Derived.magnitude = Return S
    /\ Field.nCols S = Field.nCols Scenario.FWind
    /\ Field.nRows S = Field.nRows Scenario.FWind
    /\ Field.xllCorner S = Field.xllCorner Scenario.FWind
    /\ Field.yllCorner S = Field.yllCorner Scenario.FWind
    /\ Field.cellXSize S = Field.cellXSize Scenario.FWind
    /\ Field.cellYSize S = Field.cellYSize Scenario.FWind
    /\ forall i j : Z,
         (0 <= i < Field.nCols Scenario.FWind)%Z ->
         (0 <= j < Field.nRows Scenario.FWind)%Z ->
         Built.cell S i j
         = match Built.cell Scenario.FWind i j with
           | val w =>
               val (@Derived._getFunctionFor Scenario.builtins Scenario2.trig
                      Derived.magnitude (Vector.u w) (Vector.v w))
           | _ => null
           end.
Proof.
  apply (@getScalarField_cells Scenario.builtins Scenario2.trig
           Scenario.paramsWind [val 3; val 3; null; val 3]
           [val 4; val 4; val 4; val 4] Scenario.FWind Derived.magnitude);
    by_evaluation.
Defined.

(** ** The directions of a vector *)

Lemma ltb_true_iff (x y : Q) : JS.ltb x y = true <-> x < y.
Proof.
  unfold JS.ltb. rewrite negb_true_iff. split.
  - intros H. apply Qnot_le_lt. intros Hle.
    apply Qle_bool_iff in Hle. congruence.
  - intros H. destruct (Qle_bool y x) eqn:E; [|reflexivity].
    apply Qle_bool_iff in E. exfalso. exact (Qlt_not_le _ _ H E).
Qed.

Lemma truncate_nonneg (x : Q) (n : Z) :
  (0 <= n)%Z -> inject_Z n <= x -> x < inject_Z (n + 1) -> JS.truncate x = n.
Proof.
  intros Hn Hlo Hhi. unfold JS.truncate.
  assert (H0 : 0 <= x).
  { apply Qle_trans with (inject_Z n); [|exact Hlo].
    change 0 with (inject_Z 0). rewrite <- Zle_Qle. exact Hn. }
  apply Qle_bool_iff in H0. rewrite H0.
  exact (Math_floor_unique x n Hlo Hhi).
Qed.

Lemma rem_360 (x : Q) :
  180 <= x -> x < 540 ->
  (x < 360 -> Bearing.rem x 360 == x)
  /\ (360 <= x -> Bearing.rem x 360 == x - 360).
Proof.
  intros Hlo Hhi. unfold Bearing.rem. split; intros H.
  - rewrite (truncate_nonneg (x / 360) 0).
    + change (inject_Z 0) with 0. ring.
    + lia.
    + change (inject_Z 0) with 0. apply Qle_shift_div_l; lra.
    + change (inject_Z (0 + 1)) with 1. apply Qlt_shift_div_r; lra.
  - rewrite (truncate_nonneg (x / 360) 1).
    + change (inject_Z 1) with 1. ring.
    + lia.
    + change (inject_Z 1) with 1. apply Qle_shift_div_l; lra.
    + change (inject_Z (1 + 1)) with 2. apply Qlt_shift_div_r; lra.
Qed.

Lemma directionTo_range {G : Trig} (w : Vector.t) :
  0 < Math_PI ->
  - Math_PI <= Math_atan2 (Vector.u w) (Vector.v w) ->
  Math_atan2 (Vector.u w) (Vector.v w) <= Math_PI ->
  0 <= Bearing.directionTo w /\ Bearing.directionTo w < 360.
Proof.
  intros Hpi Hlo Hhi. unfold Bearing.directionTo.
  set (a := Math_atan2 (Vector.u w) (Vector.v w)) in *.
  assert (Hk : 0 < 180 / Math_PI) by (apply Qlt_shift_div_l; lra).
  assert (Hpk : Math_PI * (180 / Math_PI) == 180).
  { field. intros E. rewrite E in Hpi. discriminate. }
  assert (H1 : a * (180 / Math_PI) <= Math_PI * (180 / Math_PI))
    by (apply Qmult_le_compat_r; [exact Hhi|lra]).
  assert (H2 : - Math_PI * (180 / Math_PI) <= a * (180 / Math_PI))
    by (apply Qmult_le_compat_r; [exact Hlo|lra]).
  assert (H3 : - Math_PI * (180 / Math_PI) == - 180)
    by lra.
  destruct (JS.ltb (a * (180 / Math_PI)) 0) eqn:E.
  - apply ltb_true_iff in E. split; lra.
  - apply ltb_false_iff in E. split; lra.
Qed.

(** X10: when [Math.atan2] answers between [-Math.PI] and [Math.PI],
    [directionTo] and [directionFrom] both lie in [0, 360) and differ by 180
    exactly. *)
Theorem directions_are_opposite {G : Trig} (w : Vector.t) :
  0 < Math_PI ->
  - Math_PI <= Math_atan2 (Vector.u w) (Vector.v w) ->
  Math_atan2 (Vector.u w) (Vector.v w) <= Math_PI ->
  (0 <= Bearing.directionTo w /\ Bearing.directionTo w < 360)
  /\ (0 <= Bearing.directionFrom w /\ Bearing.directionFrom w < 360)
  /\ (Bearing.directionFrom w == Bearing.directionTo w + 180
      \/ Bearing.directionFrom w == Bearing.directionTo w - 180).
Proof.
  intros Hpi Hlo Hhi.
  destruct (directionTo_range w Hpi Hlo Hhi) as [H0 H360].
  split; [split; assumption|].
  unfold Bearing.directionFrom. cbv zeta.
  set (a := Bearing.directionTo w) in *.
  destruct (rem_360 (a + 180) ltac:(lra) ltac:(lra)) as [Hlt Hge].
  destruct (Qlt_le_dec (a + 180) 360) as [Hc|Hc].
  - specialize (Hlt Hc). rewrite Hlt. split; [split; lra|left; reflexivity].
  - specialize (Hge Hc). rewrite Hge. split; [split; lra|right; ring].
Qed.

Lemma directions_are_opposite_witness :
  (0 <= @Bearing.directionTo Scenario2.trig Scenario2.west
   /\ @Bearing.directionTo Scenario2.trig Scenario2.west < 360)
  /\ (0 <= @Bearing.directionFrom Scenario2.trig Scenario2.west
      /\ @Bearing.directionFrom Scenario2.trig Scenario2.west < 360)
  /\ (@Bearing.directionFrom Scenario2.trig Scenario2.west
      == @Bearing.directionTo Scenario2.trig Scenario2.west + 180
      \/ @Bearing.directionFrom Scenario2.trig Scenario2.west
         == @Bearing.directionTo Scenario2.trig Scenario2.west - 180).
Proof.
  apply (@directions_are_opposite Scenario2.trig Scenario2.west);
    by_evaluation.
Defined.

(** ** Comparing cells *)

Lemma Qeq_bool_sym (x y : Q) : Qeq_bool x y = Qeq_bool y x.
Proof.
  destruct (Qeq_bool x y) eqn:E1, (Qeq_bool y x) eqn:E2; try reflexivity.
  - apply Qeq_bool_iff in E1. symmetry in E1. apply Qeq_bool_iff in E1.
    congruence.
  - apply Qeq_bool_iff in E2. symmetry in E2. apply Qeq_bool_iff in E2.
    congruence.
Qed.

Lemma _equalValues_sym (a b : value CellOps.datum) :
  CellOps._equalValues a b = CellOps._equalValues b a.
Proof.
  destruct a as [| |[x|x]], b as [| |[y|y]]; cbn; try reflexivity.
  - rewrite Qeq_bool_sym. reflexivity.
  - rewrite (Qeq_bool_sym (Vector.u x)), (Qeq_bool_sym (Vector.v x)).
    reflexivity.
Qed.

(** X11: [equals] raises a [TypeError] exactly when the two centres are
    equal and one of the two cells has no value (as the cells that
    [getCells] makes for no-data positions); in every other case it returns
    a boolean. *)
Theorem Cell_equals_raises_iff_no_data
  (latLng_equals : Q * Q -> Q * Q -> bool) (this other : Cell.t CellOps.datum) :
  CellOps.equals latLng_equals this other = Throw TypeError
  <-> latLng_equals (Cell.center this) (Cell.center other) = true
      /\ (Field._isValid (Cell.value this) = false
          \/ Field._isValid (Cell.value other) = false).
Proof.
  unfold CellOps.equals.
  destruct (latLng_equals _ _); [|split; [discriminate|intros [H _]; discriminate]].
  destruct (Cell.value this) as [| |a], (Cell.value other) as [| |b];
    cbn; try (split; [intros _; split; [reflexivity|auto]|reflexivity]).
  destruct a, b; cbn;
    (split; [discriminate|intros [_ [H|H]]; discriminate]).
Qed.

(** X12: when the comparison of centres is symmetric, so is [equals],
    exceptions included; and a cell that has a value equals itself when its
    centre equals itself. *)
Theorem Cell_equals_symmetric
  (latLng_equals : Q * Q -> Q * Q -> bool) (this other : Cell.t CellOps.datum) :
  (forall a b, latLng_equals a b = latLng_equals b a) ->
  CellOps.equals latLng_equals this other
  = CellOps.equals latLng_equals other this
  /\ (latLng_equals (Cell.center this) (Cell.center this) = true ->
      Field._isValid (Cell.value this) = true ->
      CellOps.equals latLng_equals this this = Return true).
Proof.
  intros Hsym. split.
  - unfold CellOps.equals.
    rewrite (Hsym (Cell.center this) (Cell.center other)).
    rewrite (_equalValues_sym (Cell.value this) (Cell.value other)).
    rewrite (Qeq_bool_sym (Cell.xSize this)), (Qeq_bool_sym (Cell.ySize this)).
    reflexivity.
  - intros Hc Hv. unfold CellOps.equals. rewrite Hc.
    assert (Hq : forall q, Qeq_bool q q = true)
      by (intros q; apply Qeq_bool_iff; reflexivity).
    destruct (Cell.value this) as [| |[x|x]]; try discriminate;
      cbn; rewrite !Hq; reflexivity.
Qed.

Lemma same_centre_sym (a b : Q * Q) :
  Scenario2.same_centre a b = Scenario2.same_centre b a.
Proof.
  unfold Scenario2.same_centre.
  rewrite (Qeq_bool_sym (fst a)), (Qeq_bool_sym (snd a)). reflexivity.
Qed.

Lemma Cell_equals_symmetric_witness :
  CellOps.equals Scenario2.same_centre Scenario2.cellA Scenario2.cellNoData
  = CellOps.equals Scenario2.same_centre Scenario2.cellNoData Scenario2.cellA
  /\ (Scenario2.same_centre (Cell.center Scenario2.cellA)
                            (Cell.center Scenario2.cellA) = true ->
      Field._isValid (Cell.value Scenario2.cellA) = true ->
      CellOps.equals Scenario2.same_centre Scenario2.cellA Scenario2.cellA
      = Return true).
Proof.
  apply (Cell_equals_symmetric Scenario2.same_centre Scenario2.cellA
           Scenario2.cellNoData).
  exact same_centre_sym.
Defined.

(** ** The bounds of a cell *)



(** ** Random positions and the particle pool *)

Lemma ToInt32_of_draw (r : Q) (n : Z) :
  0 <= r -> r < 1 -> (0 < n < 2 ^ 31)%Z ->
  (0 <= ToInt32 (r * inject_Z n) < n)%Z.
Proof.
  intros H0 H1 Hn.
  assert (Hpos : 0 < inject_Z n)
    by (change 0 with (inject_Z 0); rewrite <- Zlt_Qlt; lia).
  assert (Hlo : 0 <= r * inject_Z n) by (apply Qmult_le_0_compat; lra).
  assert (Hhi : r * inject_Z n < inject_Z n).
  { setoid_replace (inject_Z n) with (1 * inject_Z n) at 2 by ring.
    apply Qmult_lt_compat_r; assumption. }
  assert (Hf0 : (0 <= Qfloor (r * inject_Z n))%Z).
  { pose proof (Qfloor_resp_le _ _ Hlo) as H. exact H. }
  assert (Hf1 : (Qfloor (r * inject_Z n) < n)%Z).
  { rewrite Zlt_Qlt. eapply Qle_lt_trans; [apply Qfloor_le|exact Hhi]. }
  unfold ToInt32, JS.truncate. apply Qle_bool_iff in Hlo. rewrite Hlo.
  rewrite Z.mod_small by lia. lia.
Qed.

Lemma randomPosition_lands {T D} (F : Field.t T D) (r1 r2 : Q) :
  0 <= r1 -> r1 < 1 -> 0 <= r2 -> r2 < 1 ->
  (0 < Field.nCols F < 2 ^ 31)%Z -> (0 < Field.nRows F < 2 ^ 31)%Z ->
  Geometry.on_grid F (Field.randomPosition F r1 r2).
Proof.
  intros H10 H11 H20 H21 Hc Hr.
  exists (ToInt32 (r1 * inject_Z (Field.nCols F))),
         (ToInt32 (r2 * inject_Z (Field.nRows F))).
  split; [apply ToInt32_of_draw; assumption|].
  split; [apply ToInt32_of_draw; assumption|]. reflexivity.
Qed.

(** X14: with draws in [0, 1) and fewer than 2^31 columns and rows,
    [randomPosition] returns the centre of a cell of the grid; on a built
    field stored west of 180, without filter and mask, [valueAt] reads the
    grid value of that cell there. *)
Theorem randomPosition_on_grid {T D} (F : Field.t T D) (r1 r2 : Q) :
  0 <= r1 -> r1 < 1 -> 0 <= r2 -> r2 < 1 ->
  (0 < Field.nCols F < 2 ^ 31)%Z -> (0 < Field.nRows F < 2 ^ 31)%Z ->
  exists i j : Z,
    (0 <= i < Field.nCols F)%Z /\ (0 <= j < Field.nRows F)%Z
    /\ Field.randomPosition F r1 r2 = Field._lonLatAtIndexes F i j
    /\ (Built.grid_ok F = true ->
        Geometry.corners_ok F -> Geometry.cells_positive F ->
        Geometry.plain F -> Field.longitudeNeedsToBeWrapped F = false ->
        Field.valueAt F (fst (Field.randomPosition F r1 r2))
                        (snd (Field.randomPosition F r1 r2))
        = Return (Built.cell F i j)).
Proof.
  intros H10 H11 H20 H21 Hc Hr.
  destruct (randomPosition_lands F r1 r2 H10 H11 H20 H21 Hc Hr)
    as [i [j [Hi [Hj Heq]]]].
  exists i, j. repeat split; try lia; try exact Heq.
  intros Hok Hcorners Hpos Hplain Hwrap. rewrite Heq.
  apply valueAt_footprint; try assumption.
  apply centre_in_footprint; assumption.
Qed.

Lemma randomPosition_on_grid_witness :
  exists i j : Z,
    (0 <= i < Field.nCols Scenario.F22)%Z
    /\ (0 <= j < Field.nRows Scenario.F22)%Z
    /\ Field.randomPosition Scenario.F22 (3 # 4) (1 # 4)
       = Field._lonLatAtIndexes Scenario.F22 i j
    /\ (Built.grid_ok Scenario.F22 = true ->
        Geometry.corners_ok Scenario.F22 ->
        Geometry.cells_positive Scenario.F22 ->
        Geometry.plain Scenario.F22 ->
        Field.longitudeNeedsToBeWrapped Scenario.F22 = false ->
        Field.valueAt Scenario.F22
          (fst (Field.randomPosition Scenario.F22 (3 # 4) (1 # 4)))
          (snd (Field.randomPosition Scenario.F22 (3 # 4) (1 # 4)))
        = Return (Built.cell Scenario.F22 i j)).
Proof.
  apply (randomPosition_on_grid Scenario.F22 (3 # 4) (1 # 4)); by_evaluation.
Defined.

Section Pool.

Import VectorFieldAnim.

Context {B : Builtins}.
Variable field : VectorField.t.
Variable options : Options.
Variable inView : Q -> Q -> bool.

Lemma prepare_fresh (n : nat) :
  (forall k, 0 <= Math_random k /\ Math_random k < 1) ->
  (0 < Field.nCols field < 2 ^ 31)%Z -> (0 < Field.nRows field < 2 ^ 31)%Z ->
  (0 < maxAge options)%Z ->
  forall (k : nat) (paths : list Particle),
    Forall (Geometry.fresh field options) paths ->
    exists pool,
      prepare field options n paths k = Return (pool, (k + 3 * n)%nat)
      /\ length pool = (length paths + n)%nat
      /\ Forall (Geometry.fresh field options) pool.
Proof.
  intros Hrand Hc Hr Hmax. induction n as [|n IH]; intros k paths Hall.
  - exists paths. cbn [prepare]. unfold ret.
    replace (k + 3 * 0)%nat with k by lia.
    split; [reflexivity|]. split; [lia|exact Hall].
  - cbn [prepare].
    cbv beta iota delta [bindR randomPosition _randomAge random ret JS.bind
                         fst snd].
    set (par := set_age _ _).
    assert (Hfresh : Geometry.fresh field options par).
    { subst par. unfold Geometry.fresh.
      cbn [x y xt yt m age set_age set_position].
      split.
      - rewrite <- surjective_pairing.
        apply randomPosition_lands; try assumption; apply Hrand.
      - split; [|repeat split].
        destruct (Hrand (S (S k))) as [H0 H1].
        assert (Hpos : 0 < inject_Z (maxAge options))
          by (change 0 with (inject_Z 0); rewrite <- Zlt_Qlt; lia).
        assert (Hlo : 0 <= Math_random (S (S k)) * inject_Z (maxAge options))
          by (apply Qmult_le_0_compat; lra).
        assert (Hhi : Math_random (S (S k)) * inject_Z (maxAge options)
                      < inject_Z (maxAge options)).
        { setoid_replace (inject_Z (maxAge options))
            with (1 * inject_Z (maxAge options)) at 2 by ring.
          apply Qmult_lt_compat_r; assumption. }
        unfold Math_floor. split.
        + exact (Qfloor_resp_le _ _ Hlo).
        + rewrite Zlt_Qlt. eapply Qle_lt_trans; [apply Qfloor_le|exact Hhi]. }
    destruct (IH (S (S (S k))) (paths ++ [par])) as [pool [Hp [Hlen Hpool]]].
    { apply Forall_app. split; [exact Hall|]. constructor; [exact Hfresh|].
      constructor. }
    exists pool. split; [|split].
    + rewrite Hp. do 2 f_equal. lia.
    + rewrite Hlen, length_app. cbn [length]. lia.
    + exact Hpool.
Qed.

Lemma _drawParticles_Forall2 (paths paths' : list Particle) :
  _drawParticles options inView paths = Some paths' ->
  Forall2 (fun par par' => _drawParticle options inView par = Some par')
          paths paths'.
Proof.
  revert paths'. induction paths as [|par rest IH]; intros paths' H.
  - injection H as <-. constructor.
  - cbn [_drawParticles] in H.
    destruct (_drawParticle options inView par) as [par'|] eqn:Hp;
      [|discriminate].
    destruct (_drawParticles options inView rest) as [rest'|]; [|discriminate].
    injection H as <-. constructor; [exact Hp|]. apply IH. reflexivity.
Qed.

Lemma _drawParticle_age (par par' : Particle) :
  _drawParticle options inView par = Some par' -> age par' = age par.
Proof.
  unfold _drawParticle. destruct (_ && _).
  - destruct (xt par), (yt par); try discriminate.
    intros H. injection H as <-. reflexivity.
  - intros H. injection H as <-. reflexivity.
Qed.

Lemma moveParticle_age (par par' : Particle) (k k' : nat) :
  Built.grid_ok field = true ->
  (0 <= maxAge options)%Z ->
  (0 <= age par)%Z ->
  moveParticle field options par k = Return (par', k') ->
  (1 <= age par' <= maxAge options + 1)%Z.
Proof.
  intros Hok Hmax Hage H.
  pose proof (moveParticle_cases field options Hok par k) as Hc.
  unfold entering in Hc.
  destruct (Z.gtb_spec (age par) (maxAge options)); cbn [fst snd] in Hc;
    destruct Hc as [[vec [_ H']]|[_ H']]; rewrite H' in H;
    injection H as <- _; cbn [age set_age set_target set_position]; lia.
Qed.

End Pool.

(** X15: with draws in [0, 1), a positive [maxAge] and fewer than 2^31
    columns and rows, [_prepareParticlePaths] returns a pool of [paths]
    particles after three draws per particle; every particle sits on the
    centre of a cell, has an age in [0, maxAge) and no target yet. *)
Theorem _prepareParticlePaths_pool {B : Builtins} (field : VectorField.t)
  (options : VectorFieldAnim.Options) (k : nat) :
  (forall n, 0 <= Math_random n /\ Math_random n < 1) ->
  (0 < Field.nCols field < 2 ^ 31)%Z -> (0 < Field.nRows field < 2 ^ 31)%Z ->
  (0 < VectorFieldAnim.maxAge options)%Z ->
  (0 <= VectorFieldAnim.paths options)%Z ->
  exists pool,
    VectorFieldAnim._prepareParticlePaths field options k
    = Return (pool, (k + 3 * length pool)%nat)
    /\ Z.of_nat (length pool) = VectorFieldAnim.paths options
    /\ Forall (Geometry.fresh field options) pool.
Proof.
  intros Hrand Hc Hr Hmax Hpaths.
  destruct (prepare_fresh field options
              (Z.to_nat (VectorFieldAnim.paths options)) Hrand Hc Hr Hmax
              k [] (Forall_nil _)) as [pool [Hp [Hlen Hall]]].
  cbn [length Nat.add] in Hlen.
  exists pool. unfold VectorFieldAnim._prepareParticlePaths.
  rewrite Hlen. split; [exact Hp|]. split; [lia|exact Hall].
Qed.

Lemma _prepareParticlePaths_pool_witness :
  exists pool,
    @VectorFieldAnim._prepareParticlePaths Scenario.builtins Scenario.FWind
      Scenario.animOptions 0%nat
    = Return (pool, (0 + 3 * length pool)%nat)
    /\ Z.of_nat (length pool) = VectorFieldAnim.paths Scenario.animOptions
    /\ Forall (Geometry.fresh Scenario.FWind Scenario.animOptions) pool.
Proof.
  apply (@_prepareParticlePaths_pool Scenario.builtins Scenario.FWind
           Scenario.animOptions 0%nat); by_evaluation.
Defined.

(** X16: on a built field with [maxAge >= 0], a step of the timer
    ([_moveParticles] then [_drawParticles]) returns a pool of the same size,
    and when no particle had a negative age every particle leaves the step
    with an age between 1 and [maxAge + 1]. *)
Theorem timerStep_keeps_pool {B : Builtins} (field : VectorField.t)
  (options : VectorFieldAnim.Options) (inView : Q -> Q -> bool)
  (paths : list VectorFieldAnim.Particle) (k : nat) :
  Built.grid_ok field = true ->
  (0 <= VectorFieldAnim.maxAge options)%Z ->
  Forall (fun par => (0 <= VectorFieldAnim.age par)%Z) paths ->
  exists paths' k',
    VectorFieldAnim.timerStep field options inView paths k
    = Return (Some paths', k')
    /\ length paths' = length paths
    /\ Forall (fun par =>
                 (1 <= VectorFieldAnim.age par
                  <= VectorFieldAnim.maxAge options + 1)%Z) paths'.
Proof.
  intros Hok Hmax Hages.
  destruct (timerStep_returns field options inView Hok paths k)
    as [drawn [k' Hstep]].
  exists drawn, k'. split; [exact Hstep|].
  destruct (_moveParticles_returns field options Hok paths k)
    as [moved [k'' [Hm Hall]]].
  unfold VectorFieldAnim.timerStep in Hstep. rewrite Hm in Hstep.
  cbn [JS.bind fst snd] in Hstep. injection Hstep as Hd _.
  pose proof (_drawParticles_Forall2 options inView moved drawn Hd) as Hdraw.
  split.
  - rewrite <- (Forall2_length Hdraw). symmetry. exact (Forall2_length Hall).
  - clear Hm Hd. revert drawn Hdraw Hages.
    induction Hall as [|par par' rest rest' [k1 Hp] _ IH];
      intros drawn Hdraw Hages.
    + inversion Hdraw. constructor.
    + inversion Hdraw as [|? par'' ? drawn' Hd1 Hd2]; subst.
      inversion Hages as [|? ? Hage Hrest]; subst. constructor.
      * rewrite (_drawParticle_age options inView _ _ Hd1).
        exact (moveParticle_age field options par par' k1 _ Hok Hmax Hage Hp).
      * apply IH; assumption.
Qed.

Lemma timerStep_keeps_pool_witness :
  exists paths' k',
    @VectorFieldAnim.timerStep Scenario.builtins Scenario.FWind
      Scenario.animOptions Scenario.everywhere
      [Scenario.pOld; Scenario.pNoData; Scenario2.pYoung] 0%nat
    = Return (Some paths', k')
    /\ length paths'
       = length [Scenario.pOld; Scenario.pNoData; Scenario2.pYoung]
    /\ Forall (fun par =>
                 (1 <= VectorFieldAnim.age par
                  <= VectorFieldAnim.maxAge Scenario.animOptions + 1)%Z)
              paths'.
Proof.
  apply (@timerStep_keeps_pool Scenario.builtins Scenario.FWind
           Scenario.animOptions Scenario.everywhere
           [Scenario.pOld; Scenario.pNoData; Scenario2.pYoung] 0%nat).
  - reflexivity.
  - vm_compute. congruence.
  - repeat constructor; vm_compute; congruence.
Defined.

(** X17: the Euler step.  On a built field, a particle in view whose age is
    below [maxAge] and whose advance succeeds with the vector [vec] is, after
    [_moveParticles] and [_drawParticles], at [x + u * velocityScale],
    [y + v * velocityScale], one tick older, and no random number is drawn.
    At the age [maxAge] the same advance is computed but never drawn: the
    particle keeps its position and leaves with the age [maxAge + 1]. *)
Theorem timer_step_is_euler_step {B : Builtins} (field : VectorField.t)
  (options : VectorFieldAnim.Options) (inView : Q -> Q -> bool)
  (par : VectorFieldAnim.Particle) (vec : Vector.t) (k : nat) :
  Built.grid_ok field = true ->
  VectorFieldAnim.advances field options par vec ->
  (VectorFieldAnim.age par <= VectorFieldAnim.maxAge options)%Z ->
  inView (VectorFieldAnim.y par) (VectorFieldAnim.x par) = true ->
  exists par1 par2,
    VectorFieldAnim.moveParticle field options par k = Return (par1, k)
    /\ VectorFieldAnim._drawParticle options inView par1 = Some par2
    /\ VectorFieldAnim.age par2 = (VectorFieldAnim.age par + 1)%Z
    /\ VectorFieldAnim.m par2 = val (Vector.magnitude vec)
    /\ ((VectorFieldAnim.age par < VectorFieldAnim.maxAge options)%Z ->
        VectorFieldAnim.x par2
        = VectorFieldAnim.x par
          + Vector.u vec * VectorFieldAnim.velocityScale options
        /\ VectorFieldAnim.y par2
           = VectorFieldAnim.y par
             + Vector.v vec * VectorFieldAnim.velocityScale options)
    /\ (VectorFieldAnim.age par = VectorFieldAnim.maxAge options ->
        VectorFieldAnim.x par2 = VectorFieldAnim.x par
        /\ VectorFieldAnim.y par2 = VectorFieldAnim.y par).
Proof.
  intros Hok Hadv Hage Hview.
  pose proof (moveParticle_cases field options Hok par k) as Hc.
  rewrite (entering_young field options par k Hage) in Hc.
  cbn [fst snd] in Hc.
  destruct Hc as [[vec' [Hadv' Hm]]|[Hstr _]].
  - assert (vec' = vec).
    { destruct Hadv as [Hv _], Hadv' as [Hv' _]. rewrite Hv in Hv'.
      injection Hv' as ->. reflexivity. }
    subst vec'.
    set (par1 := VectorFieldAnim.set_age _ _) in Hm.
    exists par1.
    destruct (Z.leb_spec (VectorFieldAnim.age par + 1)
                         (VectorFieldAnim.maxAge options)) as [Hle|Hgt].
    + exists (VectorFieldAnim.set_position
                (VectorFieldAnim.candidate options par vec) par1).
      split; [exact Hm|]. split.
      { unfold VectorFieldAnim._drawParticle. subst par1.
        cbn [VectorFieldAnim.x VectorFieldAnim.y VectorFieldAnim.xt
             VectorFieldAnim.yt VectorFieldAnim.age VectorFieldAnim.set_age
             VectorFieldAnim.set_target].
        rewrite Hview. cbn [andb].
        destruct (Z.leb_spec (VectorFieldAnim.age par + 1)
                             (VectorFieldAnim.maxAge options)); [|lia].
        rewrite <- surjective_pairing. reflexivity. }
      split; [reflexivity|]. split; [reflexivity|].
      split; [intros _; split; reflexivity|intros; lia].
    + exists par1. split; [exact Hm|]. split.
      { unfold VectorFieldAnim._drawParticle. subst par1.
        cbn [VectorFieldAnim.x VectorFieldAnim.y VectorFieldAnim.xt
             VectorFieldAnim.yt VectorFieldAnim.age VectorFieldAnim.set_age
             VectorFieldAnim.set_target].
        destruct (Z.leb_spec (VectorFieldAnim.age par + 1)
                             (VectorFieldAnim.maxAge options)); [lia|].
        rewrite andb_false_r. reflexivity. }
      split; [reflexivity|]. split; [reflexivity|].
      split; [intros; lia|intros _; split; reflexivity].
  - exfalso. exact (advances_not_stranded field options par vec Hadv Hstr).
Qed.

Lemma timer_step_is_euler_step_witness :
  exists par1 par2,
    @VectorFieldAnim.moveParticle Scenario.builtins Scenario.FWind
      Scenario.animOptions Scenario2.pYoung 0%nat = Return (par1, 0%nat)
    /\ VectorFieldAnim._drawParticle Scenario.animOptions
         Scenario.everywhere par1 = Some par2
    /\ VectorFieldAnim.age par2 = (VectorFieldAnim.age Scenario2.pYoung + 1)%Z
    /\ VectorFieldAnim.m par2
       = val (@Vector.magnitude Scenario.builtins Scenario.wind)
    /\ ((VectorFieldAnim.age Scenario2.pYoung
         < VectorFieldAnim.maxAge Scenario.animOptions)%Z ->
        VectorFieldAnim.x par2
        = VectorFieldAnim.x Scenario2.pYoung
          + Vector.u Scenario.wind
            * VectorFieldAnim.velocityScale Scenario.animOptions
        /\ VectorFieldAnim.y par2
           = VectorFieldAnim.y Scenario2.pYoung
             + Vector.v Scenario.wind
               * VectorFieldAnim.velocityScale Scenario.animOptions)
    /\ (VectorFieldAnim.age Scenario2.pYoung
        = VectorFieldAnim.maxAge Scenario.animOptions ->
        VectorFieldAnim.x par2 = VectorFieldAnim.x Scenario2.pYoung
        /\ VectorFieldAnim.y par2 = VectorFieldAnim.y Scenario2.pYoung).
Proof.
  apply (@timer_step_is_euler_step Scenario.builtins Scenario.FWind
           Scenario.animOptions Scenario.everywhere Scenario2.pYoung
           Scenario.wind 0%nat).
  - reflexivity.
  - split; vm_compute; reflexivity.
  - vm_compute. congruence.
  - reflexivity.
Defined.

(** ** The range of a ScalarField *)

Lemma In_numbers (data : Array Q) (q : Q) :
  In q (d3.numbers data) <-> In (val q) data.
Proof.
  induction data as [|z data IH]; [reflexivity|].
  destruct z as [| |t]; cbn [d3.numbers In]; rewrite IH.
  - split; [auto|intros [H|H]; [discriminate|exact H]].
  - split; [auto|intros [H|H]; [discriminate|exact H]].
  - split; intros [H|H]; auto; [left; congruence|left; congruence].
Qed.

Lemma fold_min_spec (qs : list Q) :
  forall q,
    let m := fold_left (fun m x => if JS.ltb x m then x else m) qs q in
    In m (q :: qs) /\ forall x, In x (q :: qs) -> m <= x.
Proof.
  induction qs as [|a qs IH]; intros q; cbn [fold_left].
  - split; [left; reflexivity|]. intros x [<-|[]]. apply Qle_refl.
  - destruct (JS.ltb a q) eqn:E.
    + apply ltb_true_iff in E. destruct (IH a) as [Hin Hle]. split.
      * destruct Hin as [H|H]; [right; left; exact H|right; right; exact H].
      * intros x [<-|[<-|H]].
        -- apply Qle_trans with a; [apply Hle; left; reflexivity|].
           apply Qlt_le_weak. exact E.
        -- apply Hle. left. reflexivity.
        -- apply Hle. right. exact H.
    + apply ltb_false_iff in E. destruct (IH q) as [Hin Hle]. split.
      * destruct Hin as [H|H]; [left; exact H|right; right; exact H].
      * intros x [<-|[<-|H]].
        -- apply Hle. left. reflexivity.
        -- apply Qle_trans with q; [apply Hle; left; reflexivity|exact E].
        -- apply Hle. right. exact H.
Qed.

Lemma fold_max_spec (qs : list Q) :
  forall q,
    let m := fold_left (fun m x => if JS.gtb x m then x else m) qs q in
    In m (q :: qs) /\ forall x, In x (q :: qs) -> x <= m.
Proof.
  induction qs as [|a qs IH]; intros q; cbn [fold_left].
  - split; [left; reflexivity|]. intros x [<-|[]]. apply Qle_refl.
  - destruct (JS.gtb a q) eqn:E.
    + apply gtb_true_iff in E. destruct (IH a) as [Hin Hle]. split.
      * destruct Hin as [H|H]; [right; left; exact H|right; right; exact H].
      * intros x [<-|[<-|H]].
        -- apply Qle_trans with a; [|apply Hle; left; reflexivity].
           apply Qlt_le_weak. exact E.
        -- apply Hle. left. reflexivity.
        -- apply Hle. right. exact H.
    + apply gtb_false_iff in E. destruct (IH q) as [Hin Hle]. split.
      * destruct Hin as [H|H]; [left; exact H|right; right; exact H].
      * intros x [<-|[<-|H]].
        -- apply Hle. left. reflexivity.
        -- apply Qle_trans with q; [exact E|apply Hle; left; reflexivity].
        -- apply Hle. right. exact H.
Qed.

Lemma extrema_spec (data : Array Q) :
  (d3.numbers data = [] /\ d3.min data = undefined
   /\ d3.max data = undefined)
  \/ exists lo hi,
       d3.min data = val lo /\ d3.max data = val hi
       /\ In (val lo) data /\ In (val hi) data
       /\ forall q, In (val q) data -> lo <= q /\ q <= hi.
Proof.
  unfold d3.min, d3.max, d3.extremum.
  destruct (d3.numbers data) as [|q qs] eqn:E.
  - left. repeat split.
  - right. destruct (fold_min_spec qs q) as [Hmin Hle].
    destruct (fold_max_spec qs q) as [Hmax Hge].
    eexists. eexists. split; [reflexivity|]. split; [reflexivity|].
    rewrite <- E in Hmin, Hmax, Hle, Hge.
    split; [apply In_numbers; exact Hmin|].
    split; [apply In_numbers; exact Hmax|].
    intros x Hx. apply In_numbers in Hx. split; [apply Hle|apply Hge]; exact Hx.
Qed.

(** X18: [setFilter] on a ScalarField recomputes the range from the values
    that pass the new filter ([d3.min] and [d3.max] skip missing values):
    when no number of [zs] passes, the range is [undefined, undefined];
    otherwise it is a pair of passing numbers of [zs] that bound every
    passing number. *)
Theorem setFilter_range (F : ScalarField.t) (zs : Array Q)
  (f : option (value Q -> bool)) :
  Field.data F = Some zs ->
  exists F' : ScalarField.t,
    Field.setFilter f F = Return F'
    /\ ((forall q, In (val q) zs -> Geometry.passes f (val q) = false) ->
        Field.range F' = (undefined, undefined))
    /\ forall q,
         In (val q) zs -> Geometry.passes f (val q) = true ->
         exists lo hi,
           Field.range F' = (val lo, val hi)
           /\ lo <= q /\ q <= hi
           /\ (In (val lo) zs /\ Geometry.passes f (val lo) = true)
           /\ (In (val hi) zs /\ Geometry.passes f (val hi) = true).
Proof.
  intros Hzs. unfold Field.setFilter, Field._updateRange.
  cbn [Field._calculateRange ScalarField.impl].
  unfold ScalarField._calculateRange.
  cbn [Field.data Field._inFilter Field.set_inFilter]. rewrite Hzs.
  cbn [JS.bind]. eexists. split; [reflexivity|].
  cbn [Field.range Field.set_range].
  set (data := match f with Some g => filter g zs | None => zs end).
  assert (Hin : forall z, In z data <-> In z zs /\ Geometry.passes f z = true).
  { intros z. subst data. destruct f as [g|]; cbn [Geometry.passes].
    - apply filter_In.
    - split; [intros H; split; [exact H|reflexivity]|intros [H _]; exact H]. }
  destruct (extrema_spec data) as [[Hnone [Hmin Hmax]]|[lo [hi [Hmin [Hmax
    [Hlo [Hhi Hall]]]]]]]; rewrite Hmin, Hmax.
  - split; [reflexivity|]. intros q Hq Hp. exfalso.
    assert (Hd : In q (d3.numbers data))
      by (apply In_numbers, Hin; split; assumption).
    rewrite Hnone in Hd. exact Hd.
  - split.
    + intros Hno. exfalso. apply Hin in Hlo. destruct Hlo as [Hl Hp].
      rewrite (Hno lo Hl) in Hp. discriminate.
    + intros q Hq Hp. exists lo, hi. split; [reflexivity|].
      destruct (Hall q) as [H1 H2]; [apply Hin; split; assumption|].
      split; [exact H1|]. split; [exact H2|].
      split; apply Hin; assumption.
Qed.

Lemma setFilter_range_witness :
  exists F' : ScalarField.t,
    Field.setFilter (Some Scenario.above1) Scenario.F22 = Return F'
    /\ ((forall q, In (val q) [val 1; val 2; val 3; val 4] ->
                   Geometry.passes (Some Scenario.above1) (val q) = false) ->
        Field.range F' = (undefined, undefined))
    /\ forall q,
         In (val q) [val 1; val 2; val 3; val 4] ->
         Geometry.passes (Some Scenario.above1) (val q) = true ->
         exists lo hi,
           Field.range F' = (val lo, val hi)
           /\ lo <= q /\ q <= hi
           /\ (In (val lo) [val 1; val 2; val 3; val 4]
               /\ Geometry.passes (Some Scenario.above1) (val lo) = true)
           /\ (In (val hi) [val 1; val 2; val 3; val 4]
               /\ Geometry.passes (Some Scenario.above1) (val hi) = true).
Proof.
  apply (setFilter_range Scenario.F22 [val 1; val 2; val 3; val 4]
           (Some Scenario.above1)).
  reflexivity.
Defined.

(** X19: removing the filter undoes [setFilter].  On a field as a
    constructor returns it, [setFilter(f)] followed by [setFilter(null)]
    gives the field back, range included. *)
Theorem setFilter_null_restores :
  (forall (p : Field.Params ScalarField.Data) (F F1 : ScalarField.t)
          (f : value Q -> bool),
      ScalarField.new p = Return F ->
      Field.setFilter (Some f) F = Return F1 ->
      Field.setFilter None F1 = Return F)
  /\ (forall (B : Builtins) (p : Field.Params VectorField.Data)
             (F F1 : VectorField.t) (f : value Vector.t -> bool),
      VectorField.new p = Return F ->
      Field.setFilter (Some f) F = Return F1 ->
      Field.setFilter None F1 = Return F).
Proof.
  split.
  - intros p F F1 f Hnew Hset.
    destruct (setFilter_inv F F1 (Some f) Hset) as [r1 ->].
    unfold ScalarField.new in Hnew.
    destruct (ScalarField._buildGrid (Field.init p)) as [g|e];
      [|discriminate].
    cbn [JS.bind] in Hnew. unfold Field._updateRange in Hnew.
    cbn [Field._calculateRange ScalarField.impl] in Hnew.
    destruct (ScalarField._calculateRange (Field.set_grid g (Field.init p)))
      as [r|e] eqn:Hr; [|discriminate].
    injection Hnew as <-.
    unfold Field.setFilter, Field._updateRange.
    cbn [Field._calculateRange ScalarField.impl].
    change (ScalarField._calculateRange
              (Field.set_inFilter None
                 (Field.set_range r1
                    (Field.set_inFilter (Some f)
                       (Field.set_range r
                          (Field.set_grid g (Field.init p)))))))
      with (ScalarField._calculateRange (Field.set_grid g (Field.init p))).
    rewrite Hr. reflexivity.
  - intros B p F F1 f Hnew Hset.
    destruct (setFilter_inv F F1 (Some f) Hset) as [r1 ->].
    unfold VectorField.new in Hnew. cbv zeta in Hnew.
    destruct (VectorField._buildGrid (Field.init p)) as [g|e];
      [|discriminate].
    cbn [JS.bind] in Hnew.
    destruct (VectorField._calculateRange (Field.set_grid g (Field.init p)))
      as [r|e] eqn:Hr; [|discriminate].
    injection Hnew as <-.
    unfold Field.setFilter, Field._updateRange.
    cbn [Field._calculateRange VectorField.impl].
    change (VectorField._calculateRange
              (Field.set_inFilter None
                 (Field.set_range r1
                    (Field.set_inFilter (Some f)
                       (Field.set_range r
                          (Field.set_grid g (Field.init p)))))))
      with (VectorField._calculateRange (Field.set_grid g (Field.init p))).
    rewrite Hr. reflexivity.
Qed.

Lemma setFilter_null_restores_witness :
  Field.setFilter None Scenario.F22_above1 = Return Scenario.F22.
Proof.
  apply (proj1 setFilter_null_restores Scenario.params22 Scenario.F22
           Scenario.F22_above1 Scenario.above1); reflexivity.
Defined.

(** ** Bounds of the interpolation *)





Lemma Math_floor_inject_Z (i : Z) : Math_floor (inject_Z i) = i.
Proof. unfold Math_floor. apply Qfloor_Z. Qed.

(** X21: at integer indexes the interpolation reproduces the grid.  For a
    row index [j] of the grid, a value returned by
    [interpolatedValueAtIndexes(i, j)] at integers [i] and [j] is the grid
    value of the cell [(i, j)], for a ScalarField and, component by
    component, for a VectorField. *)
Theorem interpolation_exact_at_integer_indexes :
  (forall (F : ScalarField.t) (i j : Z) (r : Q),
      (0 <= j <= Field.nRows F - 1)%Z ->
      Field.interpolatedValueAtIndexes F (inject_Z i) (inject_Z j) = val r ->
      exists g, Built.cell F i j = val g /\ r == g)
  /\ (forall (B : Builtins) (F : VectorField.t) (i j : Z) (r : Vector.t),
      (0 <= j <= Field.nRows F - 1)%Z ->
      Field.interpolatedValueAtIndexes F (inject_Z i) (inject_Z j) = val r ->
      exists g, Built.cell F i j = val g
                /\ Vector.u r == Vector.u g /\ Vector.v r == Vector.v g).
Proof.
  split.
  - intros F i j r Hj Hr. rewrite interpolatedValueAtIndexes_cells in Hr.
    rewrite !Math_floor_inject_Z in Hr.
    rewrite (_clampRowIndex_cases F j) in Hr by lia.
    destruct (Z.ltb_spec j 0); [lia|].
    destruct (Z.gtb_spec j (Field.nRows F - 1)); [lia|].
    set (ci := Field._clampColumnIndex F _) in Hr.
    set (cj := Field._clampRowIndex F _) in Hr.
    destruct (Built.cell F i j) as [| |g00]; try discriminate.
    destruct (Built.cell F ci j) as [| |g10]; try discriminate.
    destruct (Built.cell F i cj) as [| |g01]; try discriminate.
    destruct (Built.cell F ci cj) as [| |g11]; try discriminate.
    injection Hr as <-. exists g00. split; [reflexivity|].
    cbn [Field._doInterpolation ScalarField.impl].
    unfold ScalarField._doInterpolation. ring.
  - intros B F i j r Hj Hr. rewrite interpolatedValueAtIndexes_cells in Hr.
    rewrite !Math_floor_inject_Z in Hr.
    rewrite (_clampRowIndex_cases F j) in Hr by lia.
    destruct (Z.ltb_spec j 0); [lia|].
    destruct (Z.gtb_spec j (Field.nRows F - 1)); [lia|].
    set (ci := Field._clampColumnIndex F _) in Hr.
    set (cj := Field._clampRowIndex F _) in Hr.
    destruct (Built.cell F i j) as [| |g00]; try discriminate.
    destruct (Built.cell F ci j) as [| |g10]; try discriminate.
    destruct (Built.cell F i cj) as [| |g01]; try discriminate.
    destruct (Built.cell F ci cj) as [| |g11]; try discriminate.
    injection Hr as <-. exists g00. split; [reflexivity|].
    cbn [Field._doInterpolation VectorField.impl].
    unfold VectorField._doInterpolation. cbn [Vector.u Vector.v].
    split; ring.
Qed.

Lemma interpolation_exact_at_integer_indexes_witness :
  exists g, Built.cell Scenario.F22 0 1 = val g /\ 3 == g.
Proof.
  apply (proj1 interpolation_exact_at_integer_indexes Scenario.F22 0%Z 1%Z 3).
  - vm_compute. intuition congruence.
  - vm_compute. reflexivity.
Defined.
